(** * go-stop-go: the capture rules of [rules/rules.go]

    A shallow embedding of the rules engine (neighbour resolution,
    string detection, board partition, liberty counting and capture
    arbitration) together with the properties stated for it. *)

From Stdlib Require Import ZArith List String Bool Lia Arith.
From Stdlib Require Import Permutation Sorting.Sorted.
Import ListNotations.

Local Open Scope Z_scope.

(** ** Go's [int]

    The coordinates and the board size are Go [int]s: 64-bit two's
    complement integers on the platforms the server targets.  They are
    held as [Z]; [+] and [-] wrap around. *)
Module Int.

Definition min_int : Z := - 2 ^ 63.
Definition max_int : Z := 2 ^ 63 - 1.

Definition in_range (z : Z) : Prop := min_int <= z <= max_int.

Definition wrap (z : Z) : Z := (z + 2 ^ 63) mod 2 ^ 64 - 2 ^ 63.

Definition add (a b : Z) : Z := wrap (a + b).
Definition sub (a b : Z) : Z := wrap (a - b).

End Int.

(** ** The [models] package *)
Module models.

(** Modelled from the spec: the declarations of [models.Stone] and
    [models.Board] are not part of the sources at hand.  A Stone is a
    coordinate pair plus a colour, the empty string standing for an
    empty point; a Board is a size, the occupied stones and the
    last-captured point.  The field names are those the code reads
    ([stone.X], [stone.Y], [stone.Color], [board.Size],
    [board.Stones], [board.LastTaker]). *)
Record Stone : Type := mkStone { X : Z; Y : Z; Color : string }.

Record Board : Type :=
  mkBoard { Size : Z; Stones : list Stone; LastTaker : option Stone }.

End models.

(** ** The [rules] package *)
Module rules.
Import models.

(** [type String []models.Stone] *)
Definition String : Type := list Stone.

(** [reflect.DeepEqual] on two stones: field by field. *)
Definition Stone_eqb (a b : Stone) : bool :=
  (X a =? X b) && (Y a =? Y b) && String.eqb (Color a) (Color b).

(** [reflect.DeepEqual] on two strings of stones: same length and
    element-wise equal.  (The nil slice, which DeepEqual tells apart
    from the empty one, never reaches [containsString]: [getString]
    builds its result with [make].) *)
Fixpoint String_eqb (a b : String) : bool :=
  match a, b with
  | [], [] => true
  | x :: a', y :: b' => Stone_eqb x y && String_eqb a' b'
  | _, _ => false
  end.

Inductive error : Type := selfCaptureError.

(** [selfCaptureError.Error] *)
Definition Error (e : error) : string := "Move is suicidal"%string.

Definition isInbounds (size : Z) (stone : Stone) : bool :=
  if (X stone <? 0) || (X stone >=? size) then false
  else if (Y stone <? 0) || (Y stone >=? size) then false
  else true.

Fixpoint find (stones : list Stone) (stone : Stone) : option Stone :=
  match stones with
  | [] => None
  | s :: rest =>
      if (X s =? X stone) && (Y s =? Y stone) then Some s
      else find rest stone
  end.

Fixpoint contains (list : list Stone) (item : Stone) : bool :=
  match list with
  | [] => false
  | v :: rest => if Stone_eqb v item then true else contains rest item
  end.

Fixpoint containsString (strings : list String) (str : String) : bool :=
  match strings with
  | [] => false
  | s :: rest => if String_eqb s str then true else containsString rest str
  end.

(** The four candidates of [getNearby], in the order of the slice
    literal: up, down, left, right.  Their colour is the zero value of
    the field. *)
Definition nearbyStones (stone : Stone) : list Stone :=
  let up := mkStone (X stone) (Int.add (Y stone) 1) EmptyString in
  let down := mkStone (X stone) (Int.sub (Y stone) 1) EmptyString in
  let left := mkStone (Int.sub (X stone) 1) (Y stone) EmptyString in
  let right := mkStone (Int.add (X stone) 1) (Y stone) EmptyString in
  [up; down; left; right].

(** The body of the loop of [getNearby] for a candidate in bounds: the
    stone the board holds there, or the candidate itself. *)
Definition resolve (board : Board) (s : Stone) : Stone :=
  match find (Stones board) s with
  | Some existingStone => existingStone
  | None => s
  end.

Definition getNearby (board : Board) (stone : Stone) : list Stone :=
  fold_left
    (fun validStones s =>
       if isInbounds (Size board) s
       then validStones ++ [resolve board s]
       else validStones)
    (nearbyStones stone) [].

(** [s, acc = acc[len(acc)-1], acc[:len(acc)-1]]: the work list is a
    slice whose top is its last element. *)
Definition pop (acc : list Stone) : option (Stone * list Stone) :=
  match rev acc with
  | [] => None
  | s :: r => Some (s, rev r)
  end.

(** The loop of [getString].  The Go loop has no counter; [fuel]
    bounds the number of iterations, and [None] is returned when it
    runs out with a non-empty work list. *)
Fixpoint getString_loop (fuel : nat) (board : Board) (stone : Stone)
         (acc : list Stone) (str : String) : option String :=
  match pop acc with
  | None => Some str
  | Some (s, acc') =>
      match fuel with
      | O => None
      | S fuel' =>
          if negb (contains str s) && String.eqb (Color s) (Color stone)
          then getString_loop fuel' board stone
                              (acc' ++ getNearby board s) (str ++ [s])
          else getString_loop fuel' board stone acc' str
      end
  end.

(** Iterations granted to the loop: five per point of the board, plus
    five for the seed.  [getString_loop_getString] shows that the loop
    always returns within them. *)
Definition getString_fuel (board : Board) : nat :=
  let n := Z.to_nat (Size board) in (5 * (n * n) + 5)%nat.

Definition getString (board : Board) (stone : Stone) : String :=
  match getString_loop (getString_fuel board) board stone [stone] [] with
  | Some str => str
  | None => []
  end.

(** The [less] closure handed to [sort.Slice]. *)
Definition less (a b : Stone) : bool :=
  if Y a <? Y b then true
  else if Y a >? Y b then false
  else X a <? X b.

(** [sort.Slice] under [less], as an insertion sort.  The strings
    sorted here never hold two stones with equal keys
    ([getString_NoDup_coords]), so every sorting algorithm returns the
    same slice ([sorted_unique]). *)
Fixpoint insert (s : Stone) (l : String) : String :=
  match l with
  | [] => [s]
  | h :: t => if less s h then s :: h :: t else h :: insert s t
  end.

Definition sortString (l : String) : String := fold_right insert [] l.

Definition getStrings (board : Board) : list String :=
  fold_left
    (fun strings stone =>
       let newString := sortString (getString board stone) in
       if negb (containsString strings newString)
       then strings ++ [newString]
       else strings)
    (Stones board) [].

Definition findLiberties (board : Board) (str : String)
  : list Stone * nat :=
  let liberties :=
    fold_left
      (fun liberties s =>
         fold_left
           (fun liberties ns =>
              if String.eqb (Color ns) EmptyString
                 && negb (contains liberties ns)
              then liberties ++ [ns]
              else liberties)
           (getNearby board s) liberties)
      str [] in
  (liberties, List.length liberties).

(** The first loop of [Run]: the strings without a liberty. *)
Definition zeroLiberties (board : Board) : list String :=
  fold_left
    (fun toRemove str =>
       if (snd (findLiberties board str) =? 0)%nat
       then toRemove ++ [str]
       else toRemove)
    (getStrings board) [].

(** [Run] returns a slice and an error; [None] is the nil error. *)
Definition Run (board : Board) (stone : Stone)
  : list String * option error :=
  let toRemove := zeroLiberties board in
  if (List.length toRemove =? 1)%nat && contains (nth 0 toRemove []) stone
  then ([], Some selfCaptureError)
  else if (1 <? List.length toRemove)%nat
       then (fold_left
               (fun updatedRemove str =>
                  if negb (contains str stone)
                  then updatedRemove ++ [str]
                  else updatedRemove)
               toRemove [],
             None)
       else (toRemove, None).

End rules.

Import models rules.

(** ** Vocabulary of the properties *)

Definition coords (s : Stone) : Z * Z := (X s, Y s).

(** A stone whose coordinates are values of Go's [int]. *)
Definition int_stone (s : Stone) : Prop :=
  Int.in_range (X s) /\ Int.in_range (Y s).

(** [t] sits one step up, down, left or right of [s]. *)
Definition adjacent (s t : Stone) : Prop :=
  (X t = X s /\ (Y t = Y s + 1 \/ Y t = Y s - 1))
  \/ (Y t = Y s /\ (X t = X s - 1 \/ X t = X s + 1)).

(** The colour the board shows at a point: that of the stone [find]
    yields there, the empty colour where it yields none. *)
Definition colorAt (board : Board) (x y : Z) : string :=
  Color (resolve board (mkStone x y EmptyString)).

(** [t] is a position of the board: a point within bounds, with the
    stone the board holds there. *)
Definition on_board (board : Board) (t : Stone) : Prop :=
  isInbounds (Size board) t = true /\ find (Stones board) t = Some t.

(** Chains of adjacent board positions of colour [c], starting at a
    seed (which need not be a position itself). *)
Inductive connected (board : Board) (c : string) (seed : Stone)
  : Stone -> Prop :=
| connected_seed : connected board c seed seed
| connected_step : forall t u,
    connected board c seed t ->
    adjacent t u -> on_board board u -> Color u = c ->
    connected board c seed u.

(** The same chains over the neighbours [getNearby] resolves. *)
Inductive linked (board : Board) (c : string) (seed : Stone)
  : Stone -> Prop :=
| linked_seed : linked board c seed seed
| linked_step : forall t u,
    linked board c seed t ->
    In u (getNearby board t) -> Color u = c ->
    linked board c seed u.

(** A board as the callers of [Run] build it: a size that is an [int],
    and occupied stones at pairwise distinct points within bounds. *)
Definition distinct_coords (board : Board) : Prop :=
  NoDup (map coords (Stones board)).

Definition stones_inbounds (board : Board) : Prop :=
  Forall (fun t => isInbounds (Size board) t = true) (Stones board).

Definition stones_occupied (board : Board) : Prop :=
  Forall (fun t => Color t <> EmptyString) (Stones board).

(** The partition property of [getStrings] on one board. *)
Definition covers_stones (board : Board) : Prop :=
  forall s, (exists str, In str (getStrings board) /\ In s str)
            <-> In s (Stones board).

Definition no_shared_point (board : Board) : Prop :=
  forall str1 str2 s1 s2,
    In str1 (getStrings board) -> In str2 (getStrings board) ->
    In s1 str1 -> In s2 str2 -> coords s1 = coords s2 -> str1 = str2.

(** *** Visited tracking keyed on the coordinates

    The membership test of the specification, which compares the
    coordinates only, and the traversal of [getString] run with it. *)
Fixpoint containsCoord (list : list Stone) (item : Stone) : bool :=
  match list with
  | [] => false
  | v :: rest =>
      if (X v =? X item) && (Y v =? Y item) then true
      else containsCoord rest item
  end.

Fixpoint getString_loop_byCoord (fuel : nat) (board : Board) (stone : Stone)
         (acc : list Stone) (str : String) : option String :=
  match pop acc with
  | None => Some str
  | Some (s, acc') =>
      match fuel with
      | O => None
      | S fuel' =>
          if negb (containsCoord str s) && String.eqb (Color s) (Color stone)
          then getString_loop_byCoord fuel' board stone
                                      (acc' ++ getNearby board s) (str ++ [s])
          else getString_loop_byCoord fuel' board stone acc' str
      end
  end.

Definition getString_byCoord (board : Board) (stone : Stone) : String :=
  match getString_loop_byCoord (getString_fuel board) board stone
                               [stone] [] with
  | Some str => str
  | None => []
  end.

(** *** The measure of the traversal

    [points board] lists what [getNearby] can return on the board: the
    resolved stone of every point within bounds.  A stone of the work
    list weighs 1 when it is such a stone and 5 otherwise; a point not
    yet in the result weighs 5. *)
Definition points (board : Board) : list Stone :=
  let n := Z.to_nat (Size board) in
  flat_map
    (fun x =>
       map (fun y => resolve board
                       (mkStone (Z.of_nat x) (Z.of_nat y) EmptyString))
           (seq 0 n))
    (seq 0 n).

Definition weight (board : Board) (a : Stone) : nat :=
  if contains (points board) a then 1%nat else 5%nat.

Definition unvisited (board : Board) (str : String) : nat :=
  List.length (filter (fun u => negb (contains str u)) (points board)).

Definition measure (board : Board) (acc : list Stone) (str : String) : nat :=
  (list_sum (map (weight board) acc) + 5 * unvisited board str)%nat.

(** The order [less] sorts by. *)
Definition key_le (a b : Stone) : Prop := less b a = false.

(** *** Points

    A point within the bounds of a board of the given size, and the four
    points around a stone in the order [getNearby] visits them: up,
    down, left, right. *)
Definition inBoard (size : Z) (p : Z * Z) : bool :=
  (0 <=? fst p) && (fst p <? size) && (0 <=? snd p) && (snd p <? size).

Definition around (s : Stone) : list (Z * Z) :=
  [(X s, Y s + 1); (X s, Y s - 1); (X s - 1, Y s); (X s + 1, Y s)].

(** *** The board as the specification sees it

    A stone within the bounds of the board, by its coordinates alone;
    and the chains of the specification: from a seed, step by step to
    an adjacent stone of the board of colour [c].  Neither mentions a
    function of the package. *)
Definition within (board : Board) (t : Stone) : Prop :=
  0 <= X t < Size board /\ 0 <= Y t < Size board.

Definition stones_within (board : Board) : Prop :=
  Forall (within board) (Stones board).

Inductive chain (board : Board) (c : string) (seed : Stone)
  : Stone -> Prop :=
| chain_seed : chain board c seed seed
| chain_step : forall t u,
    chain board c seed t ->
    adjacent t u -> In u (Stones board) -> Color u = c ->
    chain board c seed u.

(** A point of the board where no stone sits. *)
Definition vacant (board : Board) (x y : Z) : Prop :=
  forall t, In t (Stones board) -> coords t <> (x, y).

(** *** Boards of the examples *)

Definition black : string := "black"%string.
Definition white : string := "white"%string.

(** A white stone in the corner of a 5x5 board, its two neighbours
    black. *)
Definition board_corner : Board :=
  mkBoard 5 [mkStone 0 1 black; mkStone 1 0 black; mkStone 0 0 white] None.

(** A full 2x2 board in a chequered pattern: four strings, none with a
    liberty. *)
Definition board_full : Board :=
  mkBoard 2 [mkStone 0 0 black; mkStone 1 0 white;
             mkStone 0 1 white; mkStone 1 1 black] None.

(** A single stone in the middle of a 5x5 board. *)
Definition board_centre : Board := mkBoard 5 [mkStone 2 2 black] None.

(** A 3x3 board with a stone outside its bounds, next to one inside. *)
Definition board_outside : Board :=
  mkBoard 3 [mkStone 3 0 black; mkStone 2 0 black] None.

(** A 3x3 board with a black string of three stones bent around a
    white stone, and a fourth black stone apart. *)
Definition board_group : Board :=
  mkBoard 3 [mkStone 0 0 black; mkStone 1 0 black; mkStone 1 1 black;
             mkStone 2 0 white; mkStone 2 2 black] None.

(** A 2x2 board whose only stone has the empty colour. *)
Definition board_blank : Board := mkBoard 2 [mkStone 0 0 EmptyString] None.

(** *** The invariant of the traversal

    What holds of the work list [acc] and of the result [str] at every
    turn of the loop of [getString board stone]. *)
Record traversal_inv (board : Board) (stone : Stone)
       (acc : list Stone) (str : String) : Prop :=
  { inv_color : forall m, In m str -> Color m = Color stone;
    inv_NoDup : NoDup str;
    inv_str : forall m, In m str -> linked board (Color stone) stone m;
    inv_acc : forall a, In a acc -> Color a = Color stone ->
                        linked board (Color stone) stone a;
    inv_seed : In stone str \/ In stone acc;
    inv_closed : forall m n,
        In m str -> In n (getNearby board m) -> Color n = Color stone ->
        In n str \/ In n acc }.

(** ** Go's [int]: wrap-around *)

Lemma wrap_in_range z : Int.in_range z -> Int.wrap z = z.
Proof.
  unfold Int.in_range, Int.wrap, Int.min_int, Int.max_int. intros H.
  rewrite Z.mod_small; lia.
Qed.

Lemma wrap_max_succ : Int.wrap (Int.max_int + 1) = Int.min_int.
Proof. reflexivity. Qed.

Lemma wrap_min_pred : Int.wrap (Int.min_int - 1) = Int.max_int.
Proof. reflexivity. Qed.

Lemma add_one z :
  Int.in_range z ->
  (z < Int.max_int /\ Int.add z 1 = z + 1)
  \/ (z = Int.max_int /\ Int.add z 1 = Int.min_int).
Proof.
  intros H. unfold Int.add.
  destruct (Z.eq_dec z Int.max_int) as [->|Hne].
  - right. split; [reflexivity | apply wrap_max_succ].
  - left. unfold Int.in_range in H. split; [lia|].
    apply wrap_in_range. unfold Int.in_range, Int.min_int, Int.max_int in *. lia.
Qed.

Lemma sub_one z :
  Int.in_range z ->
  (Int.min_int < z /\ Int.sub z 1 = z - 1)
  \/ (z = Int.min_int /\ Int.sub z 1 = Int.max_int).
Proof.
  intros H. unfold Int.sub.
  destruct (Z.eq_dec z Int.min_int) as [->|Hne].
  - right. split; [reflexivity | apply wrap_min_pred].
  - left. unfold Int.in_range in H. split; [lia|].
    apply wrap_in_range. unfold Int.in_range, Int.min_int, Int.max_int in *. lia.
Qed.

(** ** Equality of stones and strings *)

Lemma stone_ext a b :
  X a = X b -> Y a = Y b -> Color a = Color b -> a = b.
Proof. destruct a, b; simpl; intros; subst; reflexivity. Qed.

Lemma Stone_eqb_eq a b : Stone_eqb a b = true <-> a = b.
Proof.
  unfold Stone_eqb. rewrite !andb_true_iff, !Z.eqb_eq, String.eqb_eq.
  split.
  - intros [[Hx Hy] Hc]. now apply stone_ext.
  - intros ->. auto.
Qed.

Lemma String_eqb_eq a b : String_eqb a b = true <-> a = b.
Proof.
  revert b. induction a as [|x a IH]; intros [|y b]; simpl;
    try (split; [discriminate | discriminate]); [tauto|].
  rewrite andb_true_iff, Stone_eqb_eq, IH. split.
  - intros [-> ->]. reflexivity.
  - intros H. injection H. auto.
Qed.

Lemma contains_In l x : contains l x = true <-> In x l.
Proof.
  induction l as [|v l IH]; simpl.
  - split; [discriminate | tauto].
  - destruct (Stone_eqb v x) eqn:E.
    + apply Stone_eqb_eq in E. tauto.
    + rewrite IH. split; [tauto|]. intros [->|H]; [|exact H].
      assert (Stone_eqb x x = true) by now apply Stone_eqb_eq. congruence.
Qed.

Lemma contains_false l x : contains l x = false <-> ~ In x l.
Proof.
  rewrite <- contains_In. destruct (contains l x); split; congruence.
Qed.

Lemma containsString_In l x : containsString l x = true <-> In x l.
Proof.
  induction l as [|v l IH]; simpl.
  - split; [discriminate | tauto].
  - destruct (String_eqb v x) eqn:E.
    + apply String_eqb_eq in E. tauto.
    + rewrite IH. split; [tauto|]. intros [->|H]; [|exact H].
      assert (String_eqb x x = true) by now apply String_eqb_eq. congruence.
Qed.

Lemma containsCoord_spec l x :
  containsCoord l x = true <-> exists v, In v l /\ coords v = coords x.
Proof.
  unfold coords. induction l as [|v l IH]; simpl.
  - split; [discriminate | intros [? [[] _]]].
  - destruct ((X v =? X x) && (Y v =? Y x)) eqn:E.
    + apply andb_true_iff in E. rewrite !Z.eqb_eq in E.
      split; [|reflexivity]. intros _. exists v. split; [now left|].
      f_equal; tauto.
    + rewrite IH. split.
      * intros [w [Hw Hc]]. exists w. tauto.
      * intros [w [[->|Hw] Hc]]; [|exists w; tauto].
        injection Hc as Hx Hy. rewrite Hx, Hy, !Z.eqb_refl in E. discriminate.
Qed.

(** ** Loops that append: [for ... { if ... { l = append(l, ...) } }] *)

Section Append_loops.
Context {A B : Type}.
Variables (p : A -> bool) (g : A -> B).

Lemma fold_left_filter_map l acc :
  fold_left (fun acc x => if p x then acc ++ [g x] else acc) l acc
  = acc ++ map g (filter p l).
Proof.
  revert acc. induction l as [|x l IH]; intros acc; simpl.
  - now rewrite app_nil_r.
  - rewrite IH. destruct (p x); simpl; [|reflexivity].
    now rewrite <- app_assoc.
Qed.

Variable mem : list B -> B -> bool.
Hypothesis mem_In : forall l x, mem l x = true <-> In x l.

Let step (acc : list B) (x : A) : list B :=
  if p x && negb (mem acc (g x)) then acc ++ [g x] else acc.

Lemma In_fold_dedup l acc y :
  In y (fold_left step l acc)
  <-> In y acc \/ exists x, In x l /\ p x = true /\ y = g x.
Proof.
  revert acc. induction l as [|x l IH]; intros acc; simpl.
  - split; [tauto|]. intros [H|[x [[] _]]]. exact H.
  - rewrite IH. unfold step.
    destruct (p x) eqn:Hp; simpl.
    + destruct (mem acc (g x)) eqn:Hm; simpl.
      * apply mem_In in Hm. split.
        -- intros [H|[z [Hz H]]]; [tauto|]. right. exists z. tauto.
        -- intros [H|[z [[->|Hz] [Hpz ->]]]]; [tauto|tauto|].
           right. exists z. tauto.
      * rewrite in_app_iff. simpl. split.
        -- intros [[H|[<-|[]]]|[z [Hz H]]]; [tauto| |].
           ++ right. exists x. tauto.
           ++ right. exists z. tauto.
        -- intros [H|[z [[->|Hz] [Hpz ->]]]]; [tauto|tauto|].
           right. exists z. tauto.
    + split.
      * intros [H|[z [Hz H]]]; [tauto|]. right. exists z. tauto.
      * intros [H|[z [[->|Hz] [Hpz ->]]]]; [tauto|congruence|].
        right. exists z. tauto.
Qed.

Lemma NoDup_fold_dedup l acc :
  NoDup acc -> NoDup (fold_left step l acc).
Proof.
  revert acc. induction l as [|x l IH]; intros acc Hacc; simpl; [exact Hacc|].
  apply IH. unfold step.
  destruct (p x && negb (mem acc (g x))) eqn:E; [|exact Hacc].
  apply andb_true_iff in E. destruct E as [_ E].
  apply negb_true_iff in E.
  assert (~ In (g x) acc) as Hn.
  { intros H. apply mem_In in H. congruence. }
  clear E. induction acc as [|a acc IHa]; simpl.
  - constructor; [tauto | constructor].
  - inversion Hacc; subst. constructor.
    + rewrite in_app_iff. simpl. intros [H|[H|[]]]; [tauto|].
      apply Hn. now left.
    + apply IHa; [assumption|]. intros H. apply Hn. now right.
Qed.

End Append_loops.

(** ** [isInbounds], [find] and [resolve] *)

Lemma isInbounds_true size s :
  isInbounds size s = true <-> 0 <= X s < size /\ 0 <= Y s < size.
Proof.
  unfold isInbounds. rewrite !Z.geb_leb.
  destruct (Z.ltb_spec (X s) 0), (Z.leb_spec size (X s)),
    (Z.ltb_spec (Y s) 0), (Z.leb_spec size (Y s)); simpl;
    split; intros; try discriminate; try lia; reflexivity.
Qed.

Lemma isInbounds_coords size s t :
  coords s = coords t -> isInbounds size s = isInbounds size t.
Proof.
  unfold coords, isInbounds. intros H. injection H as -> ->. reflexivity.
Qed.

Lemma isInbounds_int size s :
  Int.in_range size -> isInbounds size s = true -> int_stone s.
Proof.
  unfold int_stone, Int.in_range, Int.min_int, Int.max_int.
  intros Hs H. apply isInbounds_true in H. lia.
Qed.

Lemma find_Some stones s t :
  find stones s = Some t -> In t stones /\ coords t = coords s.
Proof.
  unfold coords. induction stones as [|v l IH]; simpl; [discriminate|].
  destruct ((X v =? X s) && (Y v =? Y s)) eqn:E.
  - intros [= ->]. apply andb_true_iff in E. rewrite !Z.eqb_eq in E.
    split; [now left | f_equal; tauto].
  - intros H. apply IH in H. tauto.
Qed.

Lemma find_None stones s :
  find stones s = None -> forall t, In t stones -> coords t <> coords s.
Proof.
  unfold coords. induction stones as [|v l IH]; simpl; [tauto|].
  destruct ((X v =? X s) && (Y v =? Y s)) eqn:E; [discriminate|].
  intros H t [->|Ht]; [|now apply IH].
  intros [= Hx Hy]. rewrite Hx, Hy, !Z.eqb_refl in E. discriminate.
Qed.

Lemma find_coords stones s s' :
  coords s = coords s' -> find stones s = find stones s'.
Proof.
  unfold coords. intros [= Hx Hy].
  induction stones as [|v l IH]; simpl; [reflexivity|].
  now rewrite Hx, Hy, IH.
Qed.

Lemma NoDup_coords_inj l a b :
  NoDup (map coords l) -> In a l -> In b l -> coords a = coords b -> a = b.
Proof.
  induction l as [|v l IH]; simpl; [tauto|].
  intros Hnd Ha Hb Hc. inversion Hnd as [|? ? Hv Hl]; subst.
  destruct Ha as [->|Ha], Hb as [->|Hb]; auto.
  - exfalso. apply Hv. rewrite Hc. now apply in_map.
  - exfalso. apply Hv. rewrite <- Hc. now apply in_map.
Qed.

Lemma find_self stones t :
  NoDup (map coords stones) -> In t stones -> find stones t = Some t.
Proof.
  intros Hnd Ht. destruct (find stones t) as [u|] eqn:E.
  - apply find_Some in E. destruct E as [Hu Hc].
    f_equal. now apply (NoDup_coords_inj stones).
  - exfalso. now apply (find_None _ _ E t).
Qed.

Lemma resolve_coords board s : coords (resolve board s) = coords s.
Proof.
  unfold resolve. destruct (find (Stones board) s) eqn:E; [|reflexivity].
  now apply find_Some in E.
Qed.

Lemma resolve_ext board s s' :
  coords s = coords s' -> Color s = Color s' ->
  resolve board s = resolve board s'.
Proof.
  intros Hc Hcol. unfold resolve. rewrite (find_coords _ s s' Hc).
  destruct (find (Stones board) s'); [reflexivity|].
  unfold coords in Hc. injection Hc as Hx Hy. now apply stone_ext.
Qed.

Lemma resolve_inbounds board s :
  isInbounds (Size board) (resolve board s) = isInbounds (Size board) s.
Proof. apply isInbounds_coords, resolve_coords. Qed.

(** A resolved stone that carries a colour is a position of the board. *)
Lemma resolve_on_board board s :
  isInbounds (Size board) s = true ->
  Color s = EmptyString -> Color (resolve board s) <> EmptyString ->
  on_board board (resolve board s).
Proof.
  intros Hin Hs Hc. split; [now rewrite resolve_inbounds|].
  rewrite (find_coords _ _ s (resolve_coords board s)).
  unfold resolve in *. destruct (find (Stones board) s); congruence.
Qed.

Lemma on_board_resolve board t :
  on_board board t -> resolve board (mkStone (X t) (Y t) EmptyString) = t.
Proof.
  intros [_ H]. unfold resolve.
  rewrite (find_coords _ _ t) by reflexivity. now rewrite H.
Qed.

Lemma on_board_In board t : on_board board t -> In t (Stones board).
Proof. intros [_ H]. now apply find_Some in H. Qed.

Lemma In_on_board board t :
  distinct_coords board -> stones_inbounds board ->
  In t (Stones board) -> on_board board t.
Proof.
  intros Hd Hi Ht. split.
  - unfold stones_inbounds in Hi. rewrite Forall_forall in Hi. now apply Hi.
  - now apply find_self.
Qed.

(** ** [getNearby] *)

Lemma getNearby_eq board s :
  getNearby board s
  = map (resolve board) (filter (isInbounds (Size board)) (nearbyStones s)).
Proof.
  unfold getNearby.
  now rewrite (fold_left_filter_map (isInbounds (Size board)) (resolve board)).
Qed.

Lemma In_getNearby board s n :
  In n (getNearby board s)
  <-> exists c, In c (nearbyStones s)
                /\ isInbounds (Size board) c = true /\ n = resolve board c.
Proof.
  rewrite getNearby_eq, in_map_iff. split.
  - intros [c [<- Hc]]. apply filter_In in Hc. exists c. tauto.
  - intros [c [Hc [Hin ->]]]. exists c. rewrite filter_In. tauto.
Qed.

Lemma getNearby_length board s : (List.length (getNearby board s) <= 4)%nat.
Proof.
  rewrite getNearby_eq, length_map.
  apply (Nat.le_trans _ _ _ (filter_length_le _ _)). simpl. lia.
Qed.

Lemma nearbyStones_Color s c : In c (nearbyStones s) -> Color c = EmptyString.
Proof.
  unfold nearbyStones. simpl. intros [<-|[<-|[<-|[<-|[]]]]]; reflexivity.
Qed.

Lemma getNearby_inbounds board s n :
  In n (getNearby board s) -> isInbounds (Size board) n = true.
Proof.
  rewrite In_getNearby. intros [c [_ [H ->]]]. now rewrite resolve_inbounds.
Qed.

(** Within the range of [int], the candidates in bounds are the points
    one step away. *)
Lemma nearbyStones_adjacent size s c :
  Int.in_range size -> int_stone s ->
  In c (nearbyStones s) -> isInbounds size c = true -> adjacent s c.
Proof.
  intros Hsize [Hx Hy] Hc Hin. apply isInbounds_true in Hin.
  unfold Int.in_range, Int.min_int, Int.max_int in Hsize.
  unfold nearbyStones in Hc. simpl in Hc. unfold adjacent.
  destruct Hc as [<-|[<-|[<-|[<-|[]]]]]; simpl in *.
  - destruct (add_one (Y s) Hy) as [[_ ->]|[_ E]]; [tauto|].
    rewrite E in Hin. unfold Int.min_int in Hin. lia.
  - destruct (sub_one (Y s) Hy) as [[_ ->]|[_ E]]; [tauto|].
    rewrite E in Hin. unfold Int.max_int in Hin. lia.
  - destruct (sub_one (X s) Hx) as [[_ ->]|[_ E]]; [tauto|].
    rewrite E in Hin. unfold Int.max_int in Hin. lia.
  - destruct (add_one (X s) Hx) as [[_ ->]|[_ E]]; [tauto|].
    rewrite E in Hin. unfold Int.min_int in Hin. lia.
Qed.

Lemma adjacent_nearbyStones size s t :
  Int.in_range size -> int_stone s ->
  adjacent s t -> isInbounds size t = true ->
  In (mkStone (X t) (Y t) EmptyString) (nearbyStones s).
Proof.
  intros Hsize [Hx Hy] Hadj Hin. apply isInbounds_true in Hin.
  unfold Int.in_range, Int.min_int, Int.max_int in Hsize.
  unfold nearbyStones. simpl.
  destruct Hadj as [[Ex [Ey|Ey]]|[Ey [Ex|Ex]]]; rewrite Ex, Ey in *.
  - left. f_equal.
    destruct (add_one (Y s) Hy) as [[_ E]|[E _]]; [exact E|].
    unfold Int.max_int in E. lia.
  - right; left. f_equal.
    destruct (sub_one (Y s) Hy) as [[_ E]|[E _]]; [exact E|].
    unfold Int.min_int in E. lia.
  - right; right; left. f_equal.
    destruct (sub_one (X s) Hx) as [[_ E]|[E _]]; [exact E|].
    unfold Int.min_int in E. lia.
  - right; right; right; left. f_equal.
    destruct (add_one (X s) Hx) as [[_ E]|[E _]]; [exact E|].
    unfold Int.max_int in E. lia.
Qed.

(** ** The loop of [getString] *)

Lemma pop_None acc : pop acc = None <-> acc = [].
Proof.
  unfold pop. destruct (rev acc) as [|s r] eqn:E.
  - split; [|reflexivity]. intros _.
    rewrite <- (rev_involutive acc), E. reflexivity.
  - split; [discriminate|]. intros ->. discriminate.
Qed.

Lemma pop_Some acc s acc' : pop acc = Some (s, acc') <-> acc = acc' ++ [s].
Proof.
  unfold pop. destruct (rev acc) as [|x r] eqn:E.
  - split; [discriminate|]. intros ->. rewrite rev_app_distr in E. discriminate.
  - split.
    + intros [= -> <-]. rewrite <- (rev_involutive acc), E. reflexivity.
    + intros ->. rewrite rev_app_distr in E. simpl in E.
      injection E as <- <-. now rewrite rev_involutive.
Qed.

Lemma pop_app acc s : pop (acc ++ [s]) = Some (s, acc).
Proof. now apply pop_Some. Qed.

Lemma getString_loop_nil fuel board stone str :
  getString_loop fuel board stone [] str = Some str.
Proof. destruct fuel; reflexivity. Qed.

Lemma getString_loop_step fuel board stone acc s str :
  getString_loop (S fuel) board stone (acc ++ [s]) str
  = if negb (contains str s) && String.eqb (Color s) (Color stone)
    then getString_loop fuel board stone (acc ++ getNearby board s) (str ++ [s])
    else getString_loop fuel board stone acc str.
Proof. simpl. now rewrite pop_app. Qed.

Lemma list_last_cases {A} (l : list A) :
  l = [] \/ exists l' x, l = l' ++ [x].
Proof.
  destruct l as [|a l] using rev_ind; [now left|]. right. now exists l, a.
Qed.

Section Traversal.
Variables (board : Board) (stone : Stone).

Lemma traversal_inv_init : traversal_inv board stone [stone] [].
Proof.
  split; simpl; try tauto.
  - constructor.
  - intros a [<-|[]] _. constructor.
Qed.

Lemma traversal_inv_add acc s str :
  traversal_inv board stone (acc ++ [s]) str ->
  ~ In s str -> Color s = Color stone ->
  traversal_inv board stone (acc ++ getNearby board s) (str ++ [s]).
Proof.
  intros [Hcol Hnd Hstr Hacc Hseed Hcl] Hs Hc.
  assert (linked board (Color stone) stone s) as Hlink.
  { apply Hacc; [|exact Hc]. rewrite in_app_iff. simpl. tauto. }
  split.
  - intros m Hm. apply in_app_iff in Hm. simpl in Hm.
    destruct Hm as [Hm|[<-|[]]]; auto.
  - apply NoDup_rev in Hnd. rewrite <- (rev_involutive (str ++ [s])).
    apply NoDup_rev. rewrite rev_app_distr. simpl. constructor; [|exact Hnd].
    now rewrite <- in_rev.
  - intros m Hm. apply in_app_iff in Hm. simpl in Hm.
    destruct Hm as [Hm|[<-|[]]]; auto.
  - intros a Ha Hca. apply in_app_iff in Ha. destruct Ha as [Ha|Ha].
    + apply Hacc; [|exact Hca]. rewrite in_app_iff. tauto.
    + now apply (linked_step _ _ _ s).
  - rewrite !in_app_iff in *. simpl in *. tauto.
  - intros m n Hm Hn Hcn. rewrite !in_app_iff in *. simpl in *.
    destruct Hm as [Hm|[<-|[]]]; [|tauto].
    destruct (Hcl m n Hm Hn Hcn) as [H|H]; [tauto|].
    apply in_app_iff in H. simpl in H. tauto.
Qed.

Lemma traversal_inv_skip acc s str :
  traversal_inv board stone (acc ++ [s]) str ->
  In s str \/ Color s <> Color stone ->
  traversal_inv board stone acc str.
Proof.
  intros [Hcol Hnd Hstr Hacc Hseed Hcl] Hs.
  split; auto.
  - intros a Ha. apply Hacc. rewrite in_app_iff. tauto.
  - rewrite in_app_iff in Hseed. simpl in Hseed.
    destruct Hseed as [H|[H|[H|[]]]]; [tauto|tauto|]. subst s. tauto.
  - intros m n Hm Hn Hcn. destruct (Hcl m n Hm Hn Hcn) as [H|H]; [tauto|].
    apply in_app_iff in H. simpl in H.
    destruct H as [H|[H|[]]]; [tauto|]. subst n. tauto.
Qed.

(** Whatever the loop returns satisfies the invariant with an empty
    work list. *)
Lemma getString_loop_inv fuel : forall acc str res,
  traversal_inv board stone acc str ->
  getString_loop fuel board stone acc str = Some res ->
  traversal_inv board stone [] res.
Proof.
  induction fuel as [|fuel IH]; intros acc str res Hinv Hres.
  - destruct (list_last_cases acc) as [->|[acc' [s ->]]].
    + simpl in Hres. injection Hres as <-. exact Hinv.
    + simpl in Hres. rewrite pop_app in Hres. discriminate.
  - destruct (list_last_cases acc) as [->|[acc' [s ->]]].
    + simpl in Hres. injection Hres as <-. exact Hinv.
    + rewrite getString_loop_step in Hres.
      destruct (contains str s) eqn:Hin; simpl in Hres.
      * apply contains_In in Hin.
        apply (IH acc' str); [|exact Hres].
        apply (traversal_inv_skip _ s); tauto.
      * apply contains_false in Hin.
        destruct (String.eqb_spec (Color s) (Color stone)) as [Hc|Hc].
        -- apply (IH _ _ _ (traversal_inv_add _ _ _ Hinv Hin Hc) Hres).
        -- apply (IH acc' str); [|exact Hres].
           apply (traversal_inv_skip _ s); tauto.
Qed.

(** With an empty work list the result is the set of linked stones. *)
Lemma traversal_inv_final res t :
  traversal_inv board stone [] res ->
  In t res <-> linked board (Color stone) stone t.
Proof.
  intros [Hcol Hnd Hstr Hacc Hseed Hcl]. split; [apply Hstr|].
  induction 1 as [|t u Ht IH Hu Hc].
  - simpl in Hseed. tauto.
  - destruct (Hcl t u IH Hu Hc) as [H|[]]. exact H.
Qed.

End Traversal.

(** ** Termination of the loop *)

Lemma In_points board n :
  In n (points board)
  <-> exists x y, (x < Z.to_nat (Size board))%nat
                  /\ (y < Z.to_nat (Size board))%nat
                  /\ n = resolve board
                           (mkStone (Z.of_nat x) (Z.of_nat y) EmptyString).
Proof.
  unfold points. rewrite in_flat_map. split.
  - intros [x [Hx Hn]]. apply in_map_iff in Hn. destruct Hn as [y [<- Hy]].
    apply in_seq in Hx, Hy. exists x, y. repeat split; lia.
  - intros [x [y [Hx [Hy ->]]]]. exists x. split; [apply in_seq; lia|].
    apply in_map_iff. exists y. split; [reflexivity | apply in_seq; lia].
Qed.

Lemma getNearby_points board s n :
  In n (getNearby board s) -> In n (points board).
Proof.
  rewrite In_getNearby, In_points. intros [c [Hc [Hin ->]]].
  apply isInbounds_true in Hin.
  exists (Z.to_nat (X c)), (Z.to_nat (Y c)). repeat split; try lia.
  apply resolve_ext.
  - unfold coords. simpl. f_equal; lia.
  - simpl. now apply nearbyStones_Color in Hc.
Qed.

Lemma length_flat_map_const {A B} (f : A -> list B) k l :
  (forall x, List.length (f x) = k) ->
  List.length (flat_map f l) = (List.length l * k)%nat.
Proof.
  intros H. induction l as [|x l IH]; simpl; [reflexivity|].
  now rewrite length_app, H, IH.
Qed.

Lemma points_length board :
  List.length (points board)
  = (Z.to_nat (Size board) * Z.to_nat (Size board))%nat.
Proof.
  unfold points.
  rewrite (length_flat_map_const _ (Z.to_nat (Size board))).
  - now rewrite length_seq.
  - intros x. now rewrite length_map, length_seq.
Qed.

Lemma weight_bounds board a : (1 <= weight board a <= 5)%nat.
Proof. unfold weight. destruct (contains (points board) a); lia. Qed.

Lemma weight_nearby board s :
  (list_sum (map (weight board) (getNearby board s)) <= 4)%nat.
Proof.
  apply (Nat.le_trans _ (List.length (getNearby board s)));
    [|apply getNearby_length].
  assert (forall n, In n (getNearby board s) -> weight board n = 1%nat) as H.
  { intros n Hn. unfold weight.
    apply getNearby_points, contains_In in Hn. now rewrite Hn. }
  induction (getNearby board s) as [|n l IH]; simpl; [lia|].
  rewrite (H n) by now left.
  assert (list_sum (map (weight board) l) <= List.length l)%nat.
  { apply IH. intros m Hm. apply H. now right. }
  lia.
Qed.

Lemma contains_app l l' x : contains (l ++ l') x = contains l x || contains l' x.
Proof.
  induction l as [|v l IH]; simpl; [reflexivity|].
  destruct (Stone_eqb v x); [reflexivity | exact IH].
Qed.

Lemma unvisited_add board str s :
  (unvisited board (str ++ [s]) <= unvisited board str)%nat
  /\ (In s (points board) -> ~ In s str ->
      unvisited board (str ++ [s]) < unvisited board str)%nat.
Proof.
  unfold unvisited. induction (points board) as [|u l [IH1 IH2]]; simpl.
  - split; [lia | tauto].
  - rewrite contains_app. simpl.
    destruct (contains str u) eqn:Hu; simpl.
    + split; [exact IH1|]. intros [->|Hs] Hn; [|now apply IH2].
      apply contains_In in Hu. tauto.
    + destruct (Stone_eqb s u) eqn:Hsu; simpl.
      * split; [lia|]. intros _ _. lia.
      * split; [lia|]. intros [->|Hs] Hn.
        -- assert (Stone_eqb s s = true) by now apply Stone_eqb_eq.
           congruence.
        -- specialize (IH2 Hs Hn). lia.
Qed.

Lemma measure_last board acc s str :
  measure board (acc ++ [s]) str
  = (measure board acc str + weight board s)%nat.
Proof.
  unfold measure. rewrite map_app, list_sum_app. simpl. lia.
Qed.

Lemma measure_add board acc s str :
  ~ In s str ->
  (measure board (acc ++ getNearby board s) (str ++ [s])
   < measure board (acc ++ [s]) str)%nat.
Proof.
  intros Hs. rewrite measure_last. unfold measure.
  rewrite map_app, list_sum_app.
  pose proof (weight_nearby board s) as Hn.
  destruct (unvisited_add board str s) as [Hle Hlt].
  destruct (contains (points board) s) eqn:Hp.
  - assert (weight board s = 1%nat) as -> by (unfold weight; now rewrite Hp).
    apply contains_In in Hp. specialize (Hlt Hp Hs). lia.
  - assert (weight board s = 5%nat) as -> by (unfold weight; now rewrite Hp).
    lia.
Qed.

Section Termination.
Variables (board : Board) (stone : Stone).

Lemma getString_loop_terminates fuel : forall acc str,
  (measure board acc str <= fuel)%nat ->
  exists res, getString_loop fuel board stone acc str = Some res.
Proof.
  induction fuel as [|fuel IH]; intros acc str Hm;
    destruct (list_last_cases acc) as [->|[acc' [s ->]]];
    try (exists str; reflexivity).
  - rewrite measure_last in Hm. pose proof (weight_bounds board s). lia.
  - rewrite getString_loop_step.
    assert (measure board acc' str <= fuel)%nat as Hskip.
    { rewrite measure_last in Hm. pose proof (weight_bounds board s). lia. }
    destruct (contains str s) eqn:Hin; simpl; [now apply IH|].
    destruct (String.eqb (Color s) (Color stone)); [|now apply IH].
    apply IH. apply contains_false in Hin.
    pose proof (measure_add board acc' s str Hin). lia.
Qed.

Lemma measure_init : (measure board [stone] [] <= getString_fuel board)%nat.
Proof.
  unfold measure, getString_fuel, unvisited. simpl.
  pose proof (weight_bounds board stone).
  pose proof (filter_length_le (fun _ : Stone => true) (points board)) as Hf.
  rewrite points_length in Hf. lia.
Qed.

Lemma getString_loop_more fuel : forall fuel' acc str res,
  getString_loop fuel board stone acc str = Some res ->
  (fuel <= fuel')%nat ->
  getString_loop fuel' board stone acc str = Some res.
Proof.
  induction fuel as [|fuel IH]; intros fuel' acc str res Hres Hle;
    destruct (list_last_cases acc) as [->|[acc' [s ->]]].
  - rewrite getString_loop_nil in *. exact Hres.
  - simpl in Hres. rewrite pop_app in Hres. discriminate.
  - rewrite getString_loop_nil in *. exact Hres.
  - destruct fuel' as [|fuel']; [lia|].
    rewrite getString_loop_step in *.
    destruct (negb (contains str s) && String.eqb (Color s) (Color stone));
      apply IH; auto; lia.
Qed.

(** [getString] is what the loop returns, and the loop does return. *)
Lemma getString_loop_getString :
  getString_loop (getString_fuel board) board stone [stone] []
  = Some (getString board stone).
Proof.
  unfold getString.
  destruct (getString_loop_terminates _ _ _ measure_init) as [res ->].
  reflexivity.
Qed.

Lemma getString_inv : traversal_inv board stone [] (getString board stone).
Proof.
  apply (getString_loop_inv board stone _ _ _ _
           (traversal_inv_init board stone) getString_loop_getString).
Qed.

Lemma In_getString t :
  In t (getString board stone) <-> linked board (Color stone) stone t.
Proof. apply traversal_inv_final, getString_inv. Qed.

End Termination.

(** ** The neighbour resolver *)

(** C6. For a board size and a position within the range of [int],
    [getNearby] returns at most four stones, at pairwise distinct
    points.  Each of them lies one step up, down, left or right of the
    position and within the bounds of the board, and is a stone of the
    board when the board has one at that point and the empty stone of
    that point otherwise.  A point one step away is returned exactly
    when both its coordinates are at least 0 and below the size. *)
Theorem getNearby_spec board stone :
  Int.in_range (Size board) -> int_stone stone ->
  (List.length (getNearby board stone) <= 4)%nat
  /\ NoDup (map coords (getNearby board stone))
  /\ (forall n, In n (getNearby board stone) ->
         adjacent stone n
         /\ isInbounds (Size board) n = true
         /\ ((exists t, In t (Stones board) /\ coords t = coords n)
             -> In n (Stones board))
         /\ ((forall t, In t (Stones board) -> coords t <> coords n)
             -> n = mkStone (X n) (Y n) EmptyString))
  /\ (forall x y, adjacent stone (mkStone x y EmptyString) ->
         (exists n, In n (getNearby board stone) /\ coords n = (x, y))
         <-> (0 <= x < Size board /\ 0 <= y < Size board)).
Proof.
  intros Hsize Hstone. split; [apply getNearby_length|]. split; [|split].
  - rewrite getNearby_eq, map_map.
    rewrite (map_ext _ coords (resolve_coords board)).
    apply NoDup_map_NoDup_ForallPairs;
      [|apply NoDup_filter].
    + intros a b Ha Hb Hab. apply filter_In in Ha, Hb.
      apply stone_ext.
      * now injection Hab.
      * now injection Hab.
      * destruct Ha as [Ha _], Hb as [Hb _].
        apply nearbyStones_Color in Ha, Hb. congruence.
    + destruct Hstone as [Hx Hy]. unfold nearbyStones.
      destruct (add_one (X stone) Hx) as [[? ->]|[? ->]],
        (sub_one (X stone) Hx) as [[? ->]|[? ->]],
        (add_one (Y stone) Hy) as [[? ->]|[? ->]],
        (sub_one (Y stone) Hy) as [[? ->]|[? ->]];
        unfold Int.min_int, Int.max_int in *;
        repeat constructor; simpl; intuition (try congruence);
        match goal with H : mkStone _ _ _ = mkStone _ _ _ |- _ =>
          injection H; intros; lia end.
  - intros n Hn. pose proof (getNearby_inbounds _ _ _ Hn) as Hin.
    apply In_getNearby in Hn. destruct Hn as [c [Hc [Hcin ->]]].
    split; [|split; [exact Hin|split]].
    + pose proof (nearbyStones_adjacent _ _ _ Hsize Hstone Hc Hcin) as Ha.
      pose proof (resolve_coords board c) as Hrc. unfold coords in Hrc.
      injection Hrc as Hx Hy. unfold adjacent in *. rewrite Hx, Hy. exact Ha.
    + intros [t [Ht Htc]]. rewrite resolve_coords in Htc.
      unfold resolve. destruct (find (Stones board) c) as [e|] eqn:E.
      * now apply find_Some in E.
      * exfalso. now apply (find_None _ _ E t).
    + intros Hnone. unfold resolve in *.
      destruct (find (Stones board) c) as [e|] eqn:E.
      * exfalso. apply (Hnone e); [|reflexivity]. now apply find_Some in E.
      * apply nearbyStones_Color in Hc. destruct c; simpl in *. now subst.
  - intros x y Hadj. split.
    + intros [n [Hn Hxy]]. apply getNearby_inbounds in Hn.
      apply isInbounds_true in Hn. unfold coords in Hxy.
      injection Hxy as <- <-. exact Hn.
    + intros Hb.
      assert (isInbounds (Size board) (mkStone x y EmptyString) = true) as Hin
        by now apply isInbounds_true.
      exists (resolve board (mkStone x y EmptyString)).
      split; [|apply resolve_coords].
      apply In_getNearby. exists (mkStone x y EmptyString).
      split; [|tauto].
      apply (adjacent_nearbyStones _ _ _ Hsize Hstone Hadj Hin).
Qed.

Lemma getNearby_spec_witness :
  Int.in_range (Size board_corner) /\ int_stone (mkStone 0 0 white)
  /\ (List.length (getNearby board_corner (mkStone 0 0 white)) <= 4)%nat.
Proof.
  assert (Int.in_range (Size board_corner)) as Hs by (vm_compute; intuition discriminate).
  assert (int_stone (mkStone 0 0 white)) as Ht
    by (vm_compute; intuition discriminate).
  split; [exact Hs | split; [exact Ht|]].
  exact (proj1 (getNearby_spec board_corner (mkStone 0 0 white) Hs Ht)).
Defined.

(** ** Termination of the group detector *)

(** C9. The loop of [getString] terminates on every board and every
    seed: with the iterations [getString_fuel] grants, and with any
    number above, it exhausts its work list and returns the string
    [getString] denotes; no stone is added to that string twice. *)
Theorem getString_terminates board stone :
  (forall extra,
      getString_loop (getString_fuel board + extra) board stone [stone] []
      = Some (getString board stone))
  /\ NoDup (getString board stone).
Proof.
  split.
  - intros extra.
    apply (getString_loop_more board stone (getString_fuel board));
      [apply getString_loop_getString | lia].
  - apply (inv_NoDup _ _ _ _ (getString_inv board stone)).
Qed.

(** ** Visited tracking by coordinates *)

Lemma containsCoord_contains str s c :
  (forall m, In m str -> Color m = c) -> Color s = c ->
  containsCoord str s = contains str s.
Proof.
  intros Hstr Hs.
  destruct (contains str s) eqn:E.
  - apply contains_In in E. apply containsCoord_spec. now exists s.
  - destruct (containsCoord str s) eqn:E'; [|reflexivity].
    apply containsCoord_spec in E'. destruct E' as [v [Hv Hc]].
    apply contains_false in E. exfalso. apply E.
    replace s with v; [exact Hv|].
    unfold coords in Hc. injection Hc as Hx Hy.
    apply stone_ext; auto. rewrite Hs. now apply Hstr.
Qed.

Lemma getString_loop_byCoord_eq board stone fuel : forall acc str,
  (forall m, In m str -> Color m = Color stone) ->
  getString_loop_byCoord fuel board stone acc str
  = getString_loop fuel board stone acc str.
Proof.
  induction fuel as [|fuel IH]; intros acc str Hstr; simpl;
    destruct (pop acc) as [[s acc']|]; try reflexivity.
  destruct (String.eqb_spec (Color s) (Color stone)) as [Hc|Hc].
  - rewrite (containsCoord_contains str s (Color stone) Hstr Hc).
    destruct (contains str s); simpl; [now apply IH|].
    apply IH. intros m Hm. apply in_app_iff in Hm. simpl in Hm.
    destruct Hm as [Hm|[<-|[]]]; auto.
  - rewrite !andb_false_r. now apply IH.
Qed.

(** C8. Tracking the visited positions by their coordinates alone gives
    the traversal of [getString]: with [contains], which compares whole
    stones, replaced by [containsCoord], which compares the coordinates
    only, the group detector returns the same string, for every board
    and every seed. *)
Theorem getString_byCoord_eq board stone :
  getString_byCoord board stone = getString board stone.
Proof.
  unfold getString_byCoord, getString.
  rewrite getString_loop_byCoord_eq; [reflexivity|].
  intros m [].
Qed.

(** ** Sorting a string *)

Lemma less_true a b :
  less a b = true <-> Y a < Y b \/ (Y a = Y b /\ X a < X b).
Proof.
  unfold less. rewrite Z.gtb_ltb.
  destruct (Z.ltb_spec (Y a) (Y b)), (Z.ltb_spec (Y b) (Y a)),
    (Z.ltb_spec (X a) (X b)); split; intros; try discriminate; try lia;
    reflexivity.
Qed.

Lemma key_le_iff a b :
  key_le a b <-> Y a < Y b \/ (Y a = Y b /\ X a <= X b).
Proof.
  unfold key_le. destruct (less b a) eqn:E.
  - apply less_true in E. split; [discriminate | lia].
  - split; [|reflexivity]. intros _.
    destruct (Z.lt_trichotomy (Y a) (Y b)) as [H|[H|H]]; [lia| |].
    + destruct (Z.le_gt_cases (X a) (X b)); [lia|].
      assert (less b a = true) by (apply less_true; lia). congruence.
    + assert (less b a = true) by (apply less_true; lia). congruence.
Qed.

Lemma key_le_trans a b c : key_le a b -> key_le b c -> key_le a c.
Proof. rewrite !key_le_iff. lia. Qed.

Lemma key_le_antisym a b : key_le a b -> key_le b a -> coords a = coords b.
Proof. rewrite !key_le_iff. unfold coords. intros. f_equal; lia. Qed.

Lemma insert_perm s l : Permutation (insert s l) (s :: l).
Proof.
  induction l as [|h t IH]; simpl; [reflexivity|].
  destruct (less s h); [reflexivity|].
  rewrite IH. apply perm_swap.
Qed.

Lemma sortString_perm l : Permutation (sortString l) l.
Proof.
  induction l as [|s l IH]; simpl; [reflexivity|].
  rewrite insert_perm. now constructor.
Qed.

Lemma In_sortString l x : In x (sortString l) <-> In x l.
Proof.
  split; apply Permutation_in;
    [apply sortString_perm | symmetry; apply sortString_perm].
Qed.

Lemma insert_sorted s l :
  StronglySorted key_le l -> StronglySorted key_le (insert s l).
Proof.
  induction 1 as [|h t Ht IH Hh]; simpl.
  - repeat constructor.
  - destruct (less s h) eqn:E.
    + assert (key_le s h) as Hsh.
      { apply key_le_iff. apply less_true in E. lia. }
      constructor; [now constructor|].
      constructor; [exact Hsh|].
      rewrite Forall_forall in *. intros x Hx.
      apply (key_le_trans _ h); auto.
    + constructor; [exact IH|].
      rewrite Forall_forall in *. intros x Hx.
      apply (Permutation_in _ (insert_perm s t)) in Hx.
      destruct Hx as [<-|Hx]; [exact E | auto].
Qed.

Lemma sortString_sorted l : StronglySorted key_le (sortString l).
Proof.
  induction l as [|s l IH]; simpl; [constructor | now apply insert_sorted].
Qed.

(** Two sorted strings with the same stones, at pairwise distinct
    points, are the same slice. *)
Lemma sorted_unique l1 : forall l2,
  StronglySorted key_le l1 -> StronglySorted key_le l2 ->
  NoDup (map coords l1) -> NoDup (map coords l2) ->
  (forall x, In x l1 <-> In x l2) -> l1 = l2.
Proof.
  induction l1 as [|a l1 IH]; intros [|b l2] S1 S2 N1 N2 Hsame.
  - reflexivity.
  - exfalso. apply (proj2 (Hsame b)). now left.
  - exfalso. apply (proj1 (Hsame a)). now left.
  - inversion S1 as [|? ? S1' F1]; inversion S2 as [|? ? S2' F2]; subst.
    rewrite Forall_forall in F1, F2.
    assert (a = b) as <-.
    { destruct (proj1 (Hsame a) (or_introl eq_refl)) as [E|Ha]; [now symmetry|].
      destruct (proj2 (Hsame b) (or_introl eq_refl)) as [E|Hb]; [exact E|].
      apply (NoDup_coords_inj (a :: l1)); simpl; auto.
      apply key_le_antisym; auto. }
    simpl in N1, N2. inversion N1 as [|? ? Na N1']; subst.
    inversion N2 as [|? ? Nb N2']; subst.
    f_equal. apply IH; auto. intros x. split; intros Hx.
    + destruct (proj1 (Hsame x) (or_intror Hx)) as [<-|H]; [|exact H].
      exfalso. apply Na. now apply in_map.
    + destruct (proj2 (Hsame x) (or_intror Hx)) as [<-|H]; [|exact H].
      exfalso. apply Nb. now apply in_map.
Qed.

(** Whatever [sort.Slice] does, on a string with pairwise distinct
    points its outcome is [sortString]. *)
Lemma sortString_unique l l' :
  NoDup (map coords l) -> Permutation l' l -> StronglySorted key_le l' ->
  l' = sortString l.
Proof.
  intros Hnd Hperm Hsorted.
  assert (Permutation l' (sortString l)) as Hp.
  { rewrite Hperm. symmetry. apply sortString_perm. }
  apply sorted_unique; auto.
  - apply sortString_sorted.
  - apply (Permutation_NoDup (l := map coords l)); [|exact Hnd].
    apply Permutation_map. now symmetry.
  - apply (Permutation_NoDup (l := map coords l)); [|exact Hnd].
    apply Permutation_map. symmetry. apply sortString_perm.
  - intros x. split; apply Permutation_in; [exact Hp | now symmetry].
Qed.

Lemma sortString_same_stones l1 l2 :
  NoDup (map coords l1) -> NoDup (map coords l2) ->
  (forall x, In x l1 <-> In x l2) -> sortString l1 = sortString l2.
Proof.
  intros N1 N2 Hsame. apply sorted_unique.
  - apply sortString_sorted.
  - apply sortString_sorted.
  - apply (Permutation_NoDup (l := map coords l1)); [|exact N1].
    apply Permutation_map. symmetry. apply sortString_perm.
  - apply (Permutation_NoDup (l := map coords l2)); [|exact N2].
    apply Permutation_map. symmetry. apply sortString_perm.
  - intros x. rewrite !In_sortString. apply Hsame.
Qed.

(** ** Strings of one colour *)

Lemma NoDup_coords_of_color l c :
  NoDup l -> (forall m, In m l -> Color m = c) -> NoDup (map coords l).
Proof.
  intros Hnd Hc. apply NoDup_map_NoDup_ForallPairs; [|exact Hnd].
  intros a b Ha Hb Hab. unfold coords in Hab. injection Hab as Hx Hy.
  apply stone_ext; auto. rewrite (Hc a Ha). symmetry. now apply Hc.
Qed.

Lemma getString_Color board stone m :
  In m (getString board stone) -> Color m = Color stone.
Proof. apply (inv_color _ _ _ _ (getString_inv board stone)). Qed.

Lemma getString_NoDup_coords board stone :
  NoDup (map coords (getString board stone)).
Proof.
  apply (NoDup_coords_of_color _ (Color stone)).
  - apply (inv_NoDup _ _ _ _ (getString_inv board stone)).
  - apply getString_Color.
Qed.

Lemma getString_seed board stone : In stone (getString board stone).
Proof. apply In_getString. constructor. Qed.

(** ** [getStrings] *)

Lemma In_getStrings board str :
  In str (getStrings board)
  <-> exists s, In s (Stones board)
                /\ str = sortString (getString board s).
Proof.
  unfold getStrings.
  rewrite (In_fold_dedup (fun _ => true)
             (fun s => sortString (getString board s))
             containsString containsString_In (Stones board) [] str).
  simpl. split.
  - intros [[]|[s [Hs [_ E]]]]. now exists s.
  - intros [s [Hs E]]. right. now exists s.
Qed.

Lemma NoDup_getStrings board : NoDup (getStrings board).
Proof.
  apply (NoDup_fold_dedup (fun _ => true)
           (fun s => sortString (getString board s))
           containsString containsString_In (Stones board) []).
  constructor.
Qed.

(** ** [findLiberties] *)

Lemma In_liberties board str : forall acc n,
  In n (fold_left
          (fun liberties s =>
             fold_left
               (fun liberties ns =>
                  if String.eqb (Color ns) EmptyString
                     && negb (contains liberties ns)
                  then liberties ++ [ns]
                  else liberties)
               (getNearby board s) liberties)
          str acc)
  <-> In n acc
      \/ exists s, In s str /\ In n (getNearby board s)
                   /\ Color n = EmptyString.
Proof.
  induction str as [|s str IH]; intros acc n; simpl.
  - split; [tauto|]. intros [H|[s [[] _]]]. exact H.
  - rewrite IH.
    rewrite (In_fold_dedup (fun ns => String.eqb (Color ns) EmptyString)
               (fun ns => ns) contains contains_In (getNearby board s) acc n).
    split.
    + intros [[H|[x [Hx [Hc ->]]]]|[s' [Hs' H]]]; [tauto| |].
      * right. exists s. apply String.eqb_eq in Hc. tauto.
      * right. exists s'. tauto.
    + intros [H|[s' [[->|Hs'] [Hn Hc]]]]; [tauto| |].
      * left. right. exists n. apply String.eqb_eq in Hc. tauto.
      * right. exists s'. tauto.
Qed.

Lemma NoDup_liberties board str : forall acc,
  NoDup acc ->
  NoDup (fold_left
           (fun liberties s =>
              fold_left
                (fun liberties ns =>
                   if String.eqb (Color ns) EmptyString
                      && negb (contains liberties ns)
                   then liberties ++ [ns]
                   else liberties)
                (getNearby board s) liberties)
           str acc).
Proof.
  induction str as [|s str IH]; intros acc Hacc; simpl; [exact Hacc|].
  apply IH.
  now apply (NoDup_fold_dedup (fun ns => String.eqb (Color ns) EmptyString)
               (fun ns => ns) contains contains_In).
Qed.

Lemma In_findLiberties board str n :
  In n (fst (findLiberties board str))
  <-> exists s, In s str /\ In n (getNearby board s)
                /\ Color n = EmptyString.
Proof.
  unfold findLiberties. simpl. rewrite In_liberties. simpl.
  split; [intros [[]|H]; exact H | tauto].
Qed.

Lemma NoDup_findLiberties board str : NoDup (fst (findLiberties board str)).
Proof. apply NoDup_liberties. constructor. Qed.

Lemma findLiberties_count board str :
  snd (findLiberties board str)
  = List.length (fst (findLiberties board str)).
Proof. reflexivity. Qed.

(** ** [Run] *)

Lemma zeroLiberties_eq board :
  zeroLiberties board
  = filter (fun str => (snd (findLiberties board str) =? 0)%nat)
           (getStrings board).
Proof.
  unfold zeroLiberties.
  rewrite (fold_left_filter_map
             (fun str => (snd (findLiberties board str) =? 0)%nat)
             (fun str => str)).
  now rewrite map_id.
Qed.

Lemma In_zeroLiberties board str :
  In str (zeroLiberties board)
  <-> In str (getStrings board)
      /\ snd (findLiberties board str) = 0%nat.
Proof. now rewrite zeroLiberties_eq, filter_In, Nat.eqb_eq. Qed.

Lemma NoDup_zeroLiberties board : NoDup (zeroLiberties board).
Proof. rewrite zeroLiberties_eq. apply NoDup_filter, NoDup_getStrings. Qed.

Lemma Run_eq board stone :
  Run board stone
  = let toRemove := zeroLiberties board in
    if (List.length toRemove =? 1)%nat && contains (nth 0 toRemove []) stone
    then ([], Some selfCaptureError)
    else if (1 <? List.length toRemove)%nat
         then (filter (fun str => negb (contains str stone)) toRemove, None)
         else (toRemove, None).
Proof.
  unfold Run.
  rewrite (fold_left_filter_map (fun str => negb (contains str stone))
             (fun str => str)).
  now rewrite map_id.
Qed.

Lemma NoDup_singleton {A} (l : list A) a :
  NoDup l -> (forall x, In x l <-> x = a) -> l = [a].
Proof.
  intros Hnd H. destruct l as [|x l].
  - exfalso. now apply (proj2 (H a)).
  - assert (x = a) as -> by (apply H; now left).
    destruct l as [|y l]; [reflexivity|].
    inversion Hnd as [|? ? Ha _]; subst. exfalso. apply Ha.
    assert (y = a) as -> by (apply H; right; now left). now left.
Qed.

(** ** The capture resolver *)

Lemma Run_error_iff board stone :
  snd (Run board stone) = Some selfCaptureError
  <-> exists str0, zeroLiberties board = [str0]
                   /\ contains str0 stone = true.
Proof.
  rewrite Run_eq. simpl.
  destruct (zeroLiberties board) as [|str0 [|str1 rest]] eqn:E; simpl.
  - split; [discriminate | intros [? [? _]]; discriminate].
  - destruct (contains str0 stone) eqn:Hc; simpl.
    + split; [|reflexivity]. intros _. now exists str0.
    + split; [discriminate|]. intros [s [[= <-] H]]. congruence.
  - split; [discriminate | intros [? [? _]]; discriminate].
Qed.

(** C1. [Run] returns the self-capture error exactly when the strings
    of the board without a liberty form a singleton whose one string
    contains the placed stone; the list it returns with the error is
    empty. *)
Theorem Run_self_capture_iff board stone :
  (snd (Run board stone) = Some selfCaptureError
   <-> exists str0,
        (forall str,
            (In str (getStrings board)
             /\ snd (findLiberties board str) = 0%nat)
            <-> str = str0)
        /\ contains str0 stone = true)
  /\ (forall e, snd (Run board stone) = Some e -> fst (Run board stone) = []).
Proof.
  split.
  - rewrite Run_error_iff. split.
    + intros [str0 [E Hc]]. exists str0. split; [|exact Hc].
      intros str. rewrite <- In_zeroLiberties, E. simpl.
      split; [intros [<-|[]]; reflexivity | intros ->; now left].
    + intros [str0 [Hall Hc]]. exists str0. split; [|exact Hc].
      apply NoDup_singleton; [apply NoDup_zeroLiberties|].
      intros str. rewrite In_zeroLiberties. apply Hall.
  - intros e. rewrite Run_eq. simpl.
    destruct ((List.length (zeroLiberties board) =? 1)%nat
              && contains (nth 0 (zeroLiberties board) []) stone);
      [reflexivity|].
    destruct (1 <? List.length (zeroLiberties board))%nat; discriminate.
Qed.

(** C2. When more than one string of the board has no liberty, [Run]
    raises no error and returns exactly the strings without a liberty
    that do not contain the placed stone, each once and in the order of
    the partition; the string of the placed stone is never among
    them. *)
Theorem Run_opponent_capture board stone :
  (exists str1 str2,
      str1 <> str2
      /\ In str1 (getStrings board)
      /\ snd (findLiberties board str1) = 0%nat
      /\ In str2 (getStrings board)
      /\ snd (findLiberties board str2) = 0%nat) ->
  snd (Run board stone) = None
  /\ fst (Run board stone)
     = filter (fun str => negb (contains str stone))
              (filter (fun str => (snd (findLiberties board str) =? 0)%nat)
                      (getStrings board))
  /\ NoDup (fst (Run board stone))
  /\ (forall str,
         In str (fst (Run board stone))
         <-> In str (getStrings board)
             /\ snd (findLiberties board str) = 0%nat
             /\ ~ In stone str).
Proof.
  intros [str1 [str2 [Hne [H1 [Hz1 [H2 Hz2]]]]]].
  assert (1 < List.length (zeroLiberties board))%nat as Hlen.
  { assert (In str1 (zeroLiberties board)) as I1
      by (apply In_zeroLiberties; tauto).
    assert (In str2 (zeroLiberties board)) as I2
      by (apply In_zeroLiberties; tauto).
    destruct (zeroLiberties board) as [|a [|b l]]; simpl in *; [tauto| |lia].
    destruct I1 as [<-|[]], I2 as [<-|[]]. congruence. }
  assert (Run board stone
          = (filter (fun str => negb (contains str stone))
                    (zeroLiberties board), None)) as E.
  { rewrite Run_eq. simpl.
    destruct (Nat.eqb_spec (List.length (zeroLiberties board)) 1); [lia|].
    simpl. destruct (Nat.ltb_spec 1 (List.length (zeroLiberties board)));
      [reflexivity | lia]. }
  rewrite E. simpl. split; [reflexivity|]. split; [|split].
  - now rewrite zeroLiberties_eq.
  - apply NoDup_filter, NoDup_zeroLiberties.
  - intros str. rewrite filter_In, In_zeroLiberties, negb_true_iff,
      contains_false. tauto.
Qed.

Lemma Run_opponent_capture_witness :
  fst (Run board_full (mkStone 1 1 black))
  = [[mkStone 0 0 black]; [mkStone 1 0 white]; [mkStone 0 1 white]].
Proof.
  refine (eq_trans
            (proj1 (proj2 (Run_opponent_capture board_full (mkStone 1 1 black)
                             _)))
            _).
  - exists [mkStone 1 0 white], [mkStone 0 1 white].
    split; [discriminate|].
    vm_compute. intuition.
  - vm_compute. reflexivity.
Defined.

(** C10. Whenever [Run] returns without an error, no string of the list
    it returns contains the placed stone: the list is empty, or is the
    one string without a liberty, which does not contain the stone, or
    is what is left of several after those containing the stone were
    dropped. *)
Theorem Run_ok_excludes_placed board stone :
  snd (Run board stone) = None ->
  (forall str, In str (fst (Run board stone)) -> contains str stone = false)
  /\ (zeroLiberties board = [] /\ fst (Run board stone) = []
      \/ (exists str0, zeroLiberties board = [str0]
                       /\ fst (Run board stone) = [str0])
      \/ ((1 < List.length (zeroLiberties board))%nat
          /\ fst (Run board stone)
             = filter (fun str => negb (contains str stone))
                      (zeroLiberties board))).
Proof.
  rewrite Run_eq. simpl.
  destruct (zeroLiberties board) as [|str0 [|str1 rest]] eqn:E; simpl.
  - intros _. split; [intros str []|]. left. split; reflexivity.
  - destruct (contains str0 stone) eqn:Hc; simpl; [discriminate|].
    intros _. split.
    + intros str [<-|[]]. exact Hc.
    + right. left. now exists str0.
  - intros _. split.
    + intros str Hstr.
      change (In str (filter (fun s => negb (contains s stone))
                             (str0 :: str1 :: rest))) in Hstr.
      apply filter_In in Hstr. now apply negb_true_iff.
    + right. right. split; [lia | reflexivity].
Qed.

Lemma Run_ok_excludes_placed_witness :
  snd (Run board_full (mkStone 1 1 black)) = None
  /\ forall str, In str (fst (Run board_full (mkStone 1 1 black))) ->
                 contains str (mkStone 1 1 black) = false.
Proof.
  assert (snd (Run board_full (mkStone 1 1 black)) = None) as H
    by (vm_compute; reflexivity).
  split; [exact H|].
  exact (proj1 (Run_ok_excludes_placed board_full (mkStone 1 1 black) H)).
Defined.

(** ** The group detector *)

Lemma adjacent_coords s t t' :
  coords t = coords t' -> adjacent s t -> adjacent s t'.
Proof.
  unfold coords, adjacent. intros [= Hx Hy]. now rewrite Hx, Hy.
Qed.

Lemma adjacent_sym s t : adjacent s t -> adjacent t s.
Proof. unfold adjacent. lia. Qed.

Section Chains.
Variables (board : Board) (c : string).
Hypothesis size_int : Int.in_range (Size board).
Hypothesis c_colour : c <> EmptyString.

(** One resolved neighbour of colour [c] is one adjacent position of
    colour [c]. *)
Lemma nearby_position t u :
  int_stone t ->
  In u (getNearby board t) /\ Color u = c
  <-> adjacent t u /\ on_board board u /\ Color u = c.
Proof.
  intros Ht. split.
  - intros [Hu Hc]. apply In_getNearby in Hu.
    destruct Hu as [cand [Hcand [Hin ->]]].
    pose proof (nearbyStones_Color _ _ Hcand) as Hcc.
    split; [|split; [|exact Hc]].
    + apply (adjacent_coords _ cand);
        [symmetry; apply resolve_coords|].
      apply (nearbyStones_adjacent (Size board)); auto.
    + apply resolve_on_board; auto. congruence.
  - intros [Hadj [Hon Hc]]. split; [|exact Hc].
    apply In_getNearby. exists (mkStone (X u) (Y u) EmptyString).
    destruct Hon as [Hin Hfind]. split; [|split].
    + apply (adjacent_nearbyStones (Size board)); auto.
    + rewrite <- Hin. now apply isInbounds_coords.
    + symmetry. apply on_board_resolve. now split.
Qed.

Lemma linked_connected seed t :
  int_stone seed ->
  linked board c seed t <-> connected board c seed t.
Proof.
  intros Hseed. split.
  - intros H.
    enough (connected board c seed t /\ int_stone t) by tauto.
    induction H as [|t u Ht [IH Hint] Hu Hc].
    + split; [constructor | exact Hseed].
    + destruct (proj1 (nearby_position t u Hint) (conj Hu Hc))
        as [Hadj [Hon _]].
      split; [now apply (connected_step _ _ _ t)|].
      apply (isInbounds_int (Size board)); [exact size_int | apply Hon].
  - intros H.
    enough (linked board c seed t /\ int_stone t) by tauto.
    induction H as [|t u Ht [IH Hint] Hadj Hon Hc].
    + split; [constructor | exact Hseed].
    + destruct (proj2 (nearby_position t u Hint) (conj Hadj (conj Hon Hc)))
        as [Hu _].
      split; [now apply (linked_step _ _ _ t)|].
      apply (isInbounds_int (Size board)); [exact size_int | apply Hon].
Qed.

Lemma connected_trans s t u :
  connected board c s t -> connected board c t u -> connected board c s u.
Proof.
  intros Hst Htu. induction Htu as [|u v Hu IH Hadj Hon Hc]; [exact Hst|].
  now apply (connected_step _ _ _ u).
Qed.

Lemma connected_position s t :
  on_board board s -> Color s = c ->
  connected board c s t -> on_board board t /\ Color t = c.
Proof. intros Hs Hc H. destruct H; tauto. Qed.

Lemma connected_sym s t :
  on_board board s -> Color s = c ->
  connected board c s t -> connected board c t s.
Proof.
  intros Hs Hc H. induction H as [|t u Ht IH Hadj Hon Hcu]; [constructor|].
  destruct (connected_position s t Hs Hc Ht) as [Hton Htc].
  apply (connected_trans u t s); [|exact IH].
  apply (connected_step _ _ _ u); [constructor| |exact Hton|exact Htc].
  now apply adjacent_sym.
Qed.

End Chains.

Lemma stones_within_inbounds board :
  stones_within board -> stones_inbounds board.
Proof.
  unfold stones_within, stones_inbounds. rewrite !Forall_forall.
  intros H t Ht. apply isInbounds_true. now apply H.
Qed.

(** On a board whose stones sit at pairwise distinct points within
    bounds, the positions [find] yields are the stones of the board, and
    the chains over them are the chains of the specification. *)
Lemma connected_chain board c seed t :
  distinct_coords board -> stones_within board ->
  connected board c seed t <-> chain board c seed t.
Proof.
  intros Hd Hw. pose proof (stones_within_inbounds _ Hw) as Hi. split.
  - induction 1 as [|t u _ IH Hadj Hon Hc]; [constructor|].
    apply (chain_step _ _ _ t); auto. now apply on_board_In.
  - induction 1 as [|t u _ IH Hadj Hin Hc]; [constructor|].
    apply (connected_step _ _ _ t); auto. now apply In_on_board.
Qed.

(** C4. On a board whose size is an [int] and whose stones sit at
    pairwise distinct points within its bounds, from a seed whose
    coordinates are [int]s and whose colour is not the empty one,
    [getString] returns the maximal set of stones of the seed's colour
    connected to the seed: every member has the colour of the seed, no
    two members share a point, and a stone is a member exactly when a
    chain of adjacent stones of the board of that colour leads from the
    seed to it. *)
Theorem getString_maximal board stone :
  Int.in_range (Size board) ->
  distinct_coords board -> stones_within board ->
  int_stone stone -> Color stone <> EmptyString ->
  (forall m, In m (getString board stone) -> Color m = Color stone)
  /\ NoDup (map coords (getString board stone))
  /\ (forall t, In t (getString board stone)
                <-> chain board (Color stone) stone t).
Proof.
  intros Hsize Hd Hw Hstone Hc. split; [|split].
  - apply getString_Color.
  - apply getString_NoDup_coords.
  - intros t. rewrite In_getString, <- connected_chain by assumption.
    now apply linked_connected.
Qed.

(** On [board_group], from the stone at (0,0): the stone at (1,1) is
    reached through (1,0); the white stone is not a member. *)
Lemma getString_maximal_witness :
  In (mkStone 1 1 black) (getString board_group (mkStone 0 0 black))
  /\ ~ In (mkStone 2 0 white) (getString board_group (mkStone 0 0 black)).
Proof.
  assert (Int.in_range (Size board_group)) as Hs
    by (vm_compute; intuition discriminate).
  assert (distinct_coords board_group) as Hd
    by (unfold distinct_coords; simpl; repeat constructor; simpl;
        intuition discriminate).
  assert (stones_within board_group) as Hw
    by (unfold stones_within, within; simpl; repeat constructor; simpl; lia).
  assert (int_stone (mkStone 0 0 black)) as Ht
    by (vm_compute; intuition discriminate).
  assert (Color (mkStone 0 0 black) <> EmptyString) as Hc
    by (simpl; discriminate).
  destruct (getString_maximal board_group (mkStone 0 0 black)
              Hs Hd Hw Ht Hc) as [Hcol [_ Hiff]].
  split.
  - apply Hiff.
    apply (chain_step _ _ _ (mkStone 1 0 black));
      [|unfold adjacent; simpl; lia | simpl; auto | reflexivity].
    apply (chain_step _ _ _ (mkStone 0 0 black));
      [constructor | unfold adjacent; simpl; lia | simpl; auto
      | reflexivity].
  - intros H. apply Hcol in H. discriminate H.
Defined.

(** ** The board partitioner *)

Section Partition.
Variable board : Board.
Hypothesis size_int : Int.in_range (Size board).
Hypothesis distinct : distinct_coords board.
Hypothesis inbounds : stones_inbounds board.
Hypothesis occupied : stones_occupied board.

Lemma stone_int t : In t (Stones board) -> int_stone t.
Proof.
  intros Ht. apply (isInbounds_int (Size board)); [exact size_int|].
  unfold stones_inbounds in inbounds. rewrite Forall_forall in inbounds.
  now apply inbounds.
Qed.

Lemma stone_occupied t : In t (Stones board) -> Color t <> EmptyString.
Proof.
  unfold stones_occupied in occupied. rewrite Forall_forall in occupied.
  apply occupied.
Qed.

Lemma In_getString_stone seed t :
  In seed (Stones board) ->
  In t (getString board seed) <-> connected board (Color seed) seed t.
Proof.
  intros Hseed. rewrite In_getString.
  apply linked_connected;
    [exact size_int | now apply stone_occupied | now apply stone_int].
Qed.

Lemma getString_stones seed t :
  In seed (Stones board) -> In t (getString board seed) ->
  In t (Stones board).
Proof.
  intros Hseed Ht. apply In_getString_stone in Ht; [|exact Hseed].
  apply on_board_In.
  apply (connected_position board (Color seed) seed t); auto.
  now apply In_on_board.
Qed.

(** Two seeds whose strings meet have the same string. *)
Lemma getString_meet a b t :
  In a (Stones board) -> In b (Stones board) ->
  In t (getString board a) -> In t (getString board b) ->
  sortString (getString board a) = sortString (getString board b).
Proof.
  intros Ha Hb Hta Htb.
  assert (Color a = Color b) as Hcol.
  { rewrite <- (getString_Color _ _ _ Hta). apply (getString_Color _ _ _ Htb). }
  pose proof (In_on_board _ _ distinct inbounds Ha) as Hona.
  pose proof (In_on_board _ _ distinct inbounds Hb) as Honb.
  apply In_getString_stone in Hta, Htb; auto.
  rewrite <- Hcol in Htb.
  assert (connected board (Color a) a b) as Hab.
  { apply (connected_trans _ _ a t b); [exact Hta|].
    apply connected_sym; auto. }
  assert (connected board (Color a) b a) as Hba
    by (apply connected_sym; auto).
  apply sortString_same_stones; try apply getString_NoDup_coords.
  intros x. rewrite !In_getString_stone by assumption. rewrite <- Hcol.
  split; intros Hx.
  - now apply (connected_trans _ _ b a x).
  - now apply (connected_trans _ _ a b x).
Qed.

Lemma getStrings_covers : covers_stones board.
Proof.
  intros s. split.
  - intros [str [Hstr Hs]]. apply In_getStrings in Hstr.
    destruct Hstr as [seed [Hseed ->]].
    apply (proj1 (In_sortString _ _)) in Hs.
    now apply (getString_stones seed).
  - intros Hs. exists (sortString (getString board s)). split.
    + apply In_getStrings. now exists s.
    + apply In_sortString, getString_seed.
Qed.

Lemma getStrings_no_shared_point : no_shared_point board.
Proof.
  intros str1 str2 s1 s2 H1 H2 Hs1 Hs2 Hc.
  apply In_getStrings in H1, H2.
  destruct H1 as [a [Ha ->]], H2 as [b [Hb ->]].
  apply (proj1 (In_sortString _ _)) in Hs1, Hs2.
  assert (s1 = s2) as <-.
  { apply (NoDup_coords_inj (Stones board)); auto.
    - now apply (getString_stones a).
    - now apply (getString_stones b). }
  now apply (getString_meet a b s1).
Qed.

End Partition.

(** C3.  On a board whose size is an [int] and
    whose stones are occupied (their colour is not the empty one) and
    sit at pairwise distinct points within the bounds of the board, the
    strings [getStrings] returns cover exactly the stones of the board,
    and no point belongs to two distinct strings. *)
Theorem getStrings_partition board :
  Int.in_range (Size board) ->
  distinct_coords board -> stones_inbounds board -> stones_occupied board ->
  covers_stones board /\ no_shared_point board.
Proof.
  intros Hsize Hd Hi Ho. split.
  - now apply getStrings_covers.
  - now apply getStrings_no_shared_point.
Qed.

Lemma getStrings_partition_witness :
  Int.in_range (Size board_corner)
  /\ distinct_coords board_corner /\ stones_inbounds board_corner
  /\ stones_occupied board_corner
  /\ covers_stones board_corner /\ no_shared_point board_corner.
Proof.
  assert (Int.in_range (Size board_corner)) as Hs
    by (vm_compute; intuition discriminate).
  assert (distinct_coords board_corner) as Hd
    by (unfold distinct_coords; simpl; repeat constructor; simpl;
        intuition discriminate).
  assert (stones_inbounds board_corner) as Hi
    by (unfold stones_inbounds; simpl; repeat constructor).
  assert (stones_occupied board_corner) as Ho
    by (unfold stones_occupied; simpl; repeat constructor; discriminate).
  split; [exact Hs | split; [exact Hd | split; [exact Hi | split; [exact Ho|]]]].
  exact (getStrings_partition board_corner Hs Hd Hi Ho).
Defined.

(** Both conditions on the stones are needed.  With pairwise distinct
    points alone, a stone outside the bounds of the board next to one of
    its colour inside puts the inner stone in two strings; and a stone
    of the empty colour draws the empty points around it into its
    string. *)
Lemma getStrings_outside_contract :
  ~ (distinct_coords board_outside ->
     covers_stones board_outside /\ no_shared_point board_outside)
  /\ ~ (distinct_coords board_blank ->
        covers_stones board_blank /\ no_shared_point board_blank).
Proof.
  split.
  - intros H.
    assert (distinct_coords board_outside) as Hd
      by (unfold distinct_coords; simpl; repeat constructor; simpl;
          intuition discriminate).
    destruct (H Hd) as [_ Hn].
    specialize (Hn [mkStone 2 0 black; mkStone 3 0 black] [mkStone 2 0 black]
                  (mkStone 2 0 black) (mkStone 2 0 black)).
    discriminate Hn; vm_compute; auto.
  - intros H.
    assert (distinct_coords board_blank) as Hd
      by (unfold distinct_coords; simpl; repeat constructor; simpl;
          intuition discriminate).
    destruct (H Hd) as [Hcov _].
    destruct (proj1 (Hcov (mkStone 1 1 EmptyString))) as [E|[]];
      [|discriminate E].
    exists (sortString (getString board_blank (mkStone 0 0 EmptyString))).
    split; vm_compute; auto 6.
Qed.

(** ** The liberty counter *)

Lemma colorAt_resolve board cand :
  Color cand = EmptyString ->
  colorAt board (X cand) (Y cand) = Color (resolve board cand).
Proof.
  intros Hc. unfold colorAt. f_equal. now apply resolve_ext.
Qed.

(** The liberties in terms of the colour the board shows at a point. *)
Lemma findLiberties_colorAt board str :
  Int.in_range (Size board) -> Forall int_stone str ->
  (forall n,
      In n (fst (findLiberties board str))
      <-> n = mkStone (X n) (Y n) EmptyString
          /\ isInbounds (Size board) n = true
          /\ colorAt board (X n) (Y n) = EmptyString
          /\ exists s, In s str /\ adjacent s n)
  /\ NoDup (map coords (fst (findLiberties board str)))
  /\ snd (findLiberties board str)
     = List.length (fst (findLiberties board str))
  /\ (In str (zeroLiberties board)
      <-> In str (getStrings board)
          /\ snd (findLiberties board str) = 0%nat).
Proof.
  intros Hsize Hstr. rewrite Forall_forall in Hstr.
  split; [|split; [|split]].
  - intros n. rewrite In_findLiberties. split.
    + intros [s [Hs [Hn Hc]]].
      pose proof (getNearby_inbounds _ _ _ Hn) as Hin.
      apply In_getNearby in Hn. destruct Hn as [cand [Hcand [Hcin ->]]].
      pose proof (nearbyStones_Color _ _ Hcand) as Hcc.
      pose proof (resolve_coords board cand) as Hrc.
      split; [|split; [exact Hin|split]].
      * now apply stone_ext.
      * unfold coords in Hrc. injection Hrc as -> ->.
        now rewrite colorAt_resolve.
      * exists s. split; [exact Hs|].
        apply (adjacent_coords _ cand); [now symmetry|].
        apply (nearbyStones_adjacent (Size board)); auto.
    + intros [Hn [Hin [Hcol [s [Hs Hadj]]]]].
      exists s. split; [exact Hs|].
      assert (Color n = EmptyString) as Hc by (rewrite Hn; reflexivity).
      split; [|exact Hc].
      apply In_getNearby. exists n. split; [|split; [exact Hin|]].
      * rewrite Hn.
        apply (adjacent_nearbyStones (Size board)); auto.
      * rewrite colorAt_resolve in Hcol by exact Hc.
        pose proof (resolve_coords board n) as Hrc.
        unfold coords in Hrc. injection Hrc as Hx Hy.
        apply stone_ext; congruence.
  - apply (NoDup_coords_of_color _ EmptyString);
      [apply NoDup_findLiberties|].
    intros m Hm. apply In_findLiberties in Hm.
    destruct Hm as [_ [_ [_ H]]]. exact H.
  - reflexivity.
  - apply In_zeroLiberties.
Qed.

(** Where every stone of the board is occupied, the board shows the
    empty colour exactly at the points where no stone sits. *)
Lemma colorAt_vacant board x y :
  stones_occupied board ->
  colorAt board x y = EmptyString <-> vacant board x y.
Proof.
  unfold stones_occupied, colorAt, resolve, vacant.
  rewrite Forall_forall. intros Hocc.
  destruct (find (Stones board) (mkStone x y EmptyString)) as [e|] eqn:E.
  - apply find_Some in E. destruct E as [He Hc]. split.
    + intros H. exfalso. now apply (Hocc e).
    + intros H. exfalso. now apply (H e).
  - split; [|reflexivity]. intros _ t Ht.
    apply (find_None _ _ E t Ht).
Qed.

(** C5. For a board whose size is an [int] and whose stones are
    occupied, and a string within the range of [int], [findLiberties]
    returns the empty points of the board that are adjacent to a member
    of the string: a stone is returned exactly when it is the empty
    stone of a point within bounds where no stone of the board sits and
    which lies one step from a member.  No point is returned twice and
    the count is the length of the list.  [Run] takes a string of the
    partition for a capture exactly when its count is zero. *)
Theorem findLiberties_spec board str :
  Int.in_range (Size board) -> stones_occupied board ->
  Forall int_stone str ->
  (forall n,
      In n (fst (findLiberties board str))
      <-> n = mkStone (X n) (Y n) EmptyString
          /\ within board n
          /\ vacant board (X n) (Y n)
          /\ exists s, In s str /\ adjacent s n)
  /\ NoDup (map coords (fst (findLiberties board str)))
  /\ snd (findLiberties board str)
     = List.length (fst (findLiberties board str))
  /\ (In str (zeroLiberties board)
      <-> In str (getStrings board)
          /\ snd (findLiberties board str) = 0%nat).
Proof.
  intros Hsize Hocc Hstr.
  destruct (findLiberties_colorAt board str Hsize Hstr)
    as [Hlibs [Hnd [Hcount Hzero]]].
  split; [|split; [exact Hnd | split; [exact Hcount | exact Hzero]]].
  intros n. rewrite Hlibs, isInbounds_true, (colorAt_vacant _ _ _ Hocc).
  unfold within. tauto.
Qed.

(** On the full 2x2 board every point around the stone at (0,0) is
    taken: its string has no liberty.  On [board_corner] the black stone
    at (0,1) has the empty point (1,1) for a liberty, and not the point
    (0,0), where the white stone sits. *)
Lemma findLiberties_spec_witness :
  snd (findLiberties board_full [mkStone 0 0 black]) = 0%nat
  /\ In (mkStone 1 1 EmptyString)
        (fst (findLiberties board_corner [mkStone 0 1 black]))
  /\ ~ In (mkStone 0 0 EmptyString)
          (fst (findLiberties board_corner [mkStone 0 1 black])).
Proof.
  assert (Int.in_range (Size board_full)) as Hs
    by (vm_compute; intuition discriminate).
  assert (stones_occupied board_full) as Ho
    by (unfold stones_occupied; simpl; repeat constructor; discriminate).
  assert (Forall int_stone [mkStone 0 0 black]) as Ht
    by (repeat constructor; vm_compute; intuition discriminate).
  assert (Int.in_range (Size board_corner)) as Hs'
    by (vm_compute; intuition discriminate).
  assert (stones_occupied board_corner) as Ho'
    by (unfold stones_occupied; simpl; repeat constructor; discriminate).
  assert (Forall int_stone [mkStone 0 1 black]) as Ht'
    by (repeat constructor; vm_compute; intuition discriminate).
  destruct (findLiberties_spec board_full [mkStone 0 0 black] Hs Ho Ht)
    as [Hfull [_ [Hcount _]]].
  destruct (findLiberties_spec board_corner [mkStone 0 1 black] Hs' Ho' Ht')
    as [Hcorner _].
  split; [|split].
  - rewrite Hcount.
    destruct (fst (findLiberties board_full [mkStone 0 0 black]))
      as [|n rest]; [reflexivity|].
    exfalso. destruct (proj1 (Hfull n) (or_introl eq_refl))
      as [_ [[Hx Hy] [Hv _]]]. simpl in Hx, Hy.
    assert (coords n = (0, 0) \/ coords n = (1, 0)
            \/ coords n = (0, 1) \/ coords n = (1, 1)) as Hn.
    { unfold coords.
      assert (X n = 0 \/ X n = 1) as [->| ->] by lia;
        assert (Y n = 0 \/ Y n = 1) as [->| ->] by lia; tauto. }
    unfold vacant in Hv. fold (coords n) in Hv.
    destruct Hn as [E|[E|[E|E]]]; rewrite E in Hv.
    + apply (Hv (mkStone 0 0 black)); simpl; auto.
    + apply (Hv (mkStone 1 0 white)); simpl; auto.
    + apply (Hv (mkStone 0 1 white)); simpl; auto.
    + apply (Hv (mkStone 1 1 black)); simpl; auto.
  - apply Hcorner. split; [reflexivity|]. split; [unfold within; simpl; lia|].
    split.
    + intros t [<-|[<-|[<-|[]]]]; discriminate.
    + exists (mkStone 0 1 black). split; [now left|].
      unfold adjacent. simpl. lia.
  - intros H. apply Hcorner in H. destruct H as [_ [_ [Hv _]]].
    apply (Hv (mkStone 0 0 white)); simpl; auto.
Defined.

(** *** Liberties when a stone leaves or enters the board *)

Lemma find_app l1 l2 c :
  find (l1 ++ l2) c
  = match find l1 c with Some e => Some e | None => find l2 c end.
Proof.
  induction l1 as [|v l1 IH]; simpl; [reflexivity|].
  destruct ((X v =? X c) && (Y v =? Y c)); [reflexivity | exact IH].
Qed.

Section One_stone.
Variables (with_t without_t : Board) (l1 l2 : list Stone) (t : Stone).
Hypothesis same_size : Size with_t = Size without_t.
Hypothesis stones_with : Stones with_t = l1 ++ t :: l2.
Hypothesis stones_without : Stones without_t = l1 ++ l2.
Hypothesis t_or_point :
  Color t <> EmptyString
  \/ colorAt without_t (X t) (Y t) = EmptyString.

(** An empty point of the board with [t] is an empty point of the board
    without it. *)
Lemma resolve_one_stone cand :
  Color cand = EmptyString ->
  Color (resolve with_t cand) = EmptyString ->
  resolve without_t cand = resolve with_t cand.
Proof.
  intros Hcand Hres.
  assert ((X t =? X cand) && (Y t =? Y cand) = false
          -> resolve without_t cand = resolve with_t cand) as Hother.
  { intros E. unfold resolve.
    rewrite stones_with, stones_without, !find_app. simpl. now rewrite E. }
  destruct (find l1 cand) as [e|] eqn:E1.
  - unfold resolve.
    now rewrite stones_with, stones_without, !find_app, E1.
  - destruct ((X t =? X cand) && (Y t =? Y cand)) eqn:Et; [|now apply Hother].
    assert (resolve with_t cand = t) as Hwt.
    { unfold resolve. rewrite stones_with, find_app, E1. simpl.
      now rewrite Et. }
    rewrite Hwt in *.
    apply andb_true_iff in Et. rewrite !Z.eqb_eq in Et.
    destruct Et as [Hx Hy].
    destruct t_or_point as [Hc|Hc]; [congruence|].
    assert (resolve without_t cand
            = resolve without_t (mkStone (X t) (Y t) EmptyString)) as Hr.
    { apply resolve_ext; [|exact Hcand].
      unfold coords. simpl. congruence. }
    pose proof (resolve_coords without_t cand) as Hrc.
    unfold coords in Hrc. injection Hrc as Hrx Hry.
    apply stone_ext; try congruence.
    rewrite Hr. unfold colorAt in Hc. congruence.
Qed.

Lemma liberties_one_stone str :
  incl (fst (findLiberties with_t str)) (fst (findLiberties without_t str)).
Proof.
  intros n Hn. apply In_findLiberties in Hn. apply In_findLiberties.
  destruct Hn as [s [Hs [Hn Hc]]]. exists s. split; [exact Hs|].
  split; [|exact Hc].
  apply In_getNearby in Hn. apply In_getNearby.
  destruct Hn as [cand [Hcand [Hin ->]]]. exists cand.
  split; [exact Hcand|]. split; [now rewrite <- same_size|].
  symmetry. apply resolve_one_stone; [|exact Hc].
  now apply nearbyStones_Color in Hcand.
Qed.

Lemma count_one_stone str :
  (snd (findLiberties with_t str) <= snd (findLiberties without_t str))%nat.
Proof.
  rewrite !findLiberties_count.
  apply NoDup_incl_length;
    [apply NoDup_findLiberties | apply liberties_one_stone].
Qed.

End One_stone.

(** C7. Let two boards of one size differ by one stone [t], held by
    [with_t] and not by [without_t].  If [t] is occupied, so that
    [without_t] is [with_t] after the removal of an occupied stone, the
    count of every string on [without_t] is greater than or equal to its
    count on [with_t].  If the point of [t] is empty on [without_t], so
    that [with_t] is [without_t] after a stone was added at an empty
    point, the count of every string on [with_t] is less than or equal
    to its count on [without_t].  Neither needs the stone to be adjacent
    to the string. *)
Theorem findLiberties_monotone with_t without_t l1 l2 t str :
  Size with_t = Size without_t ->
  Stones with_t = l1 ++ t :: l2 ->
  Stones without_t = l1 ++ l2 ->
  (Color t <> EmptyString ->
   (snd (findLiberties without_t str) >= snd (findLiberties with_t str))%nat)
  /\ (colorAt without_t (X t) (Y t) = EmptyString ->
      (snd (findLiberties with_t str)
       <= snd (findLiberties without_t str))%nat).
Proof.
  intros Hsize Hw Hwo. split; intros H.
  - apply (count_one_stone with_t without_t l1 l2 t Hsize Hw Hwo); tauto.
  - apply (count_one_stone with_t without_t l1 l2 t Hsize Hw Hwo); tauto.
Qed.

Lemma findLiberties_monotone_witness :
  (snd (findLiberties (mkBoard 5 [] None) [mkStone 2 1 white])
   >= snd (findLiberties board_centre [mkStone 2 1 white]))%nat
  /\ (snd (findLiberties board_centre [mkStone 2 1 white])
      <= snd (findLiberties (mkBoard 5 [] None) [mkStone 2 1 white]))%nat.
Proof.
  assert (Size board_centre = Size (mkBoard 5 [] None)) as Hsize
    by reflexivity.
  assert (Stones board_centre = [] ++ mkStone 2 2 black :: []) as Hw
    by reflexivity.
  assert (Stones (mkBoard 5 [] None) = [] ++ []) as Hwo by reflexivity.
  destruct (findLiberties_monotone board_centre (mkBoard 5 [] None)
              [] [] (mkStone 2 2 black) [mkStone 2 1 white] Hsize Hw Hwo)
    as [Hremove Hadd].
  split.
  - apply Hremove. discriminate.
  - apply Hadd. reflexivity.
Defined.

(** ** The scenarios of the specification *)

(** A single stone in the middle of an empty board: nothing to remove. *)
Example scenario_single_stone :
  Run board_centre (mkStone 2 2 black) = ([], None).
Proof. vm_compute. reflexivity. Qed.

(** White plays the corner between two black stones: self-capture. *)
Example scenario_self_capture :
  Run board_corner (mkStone 0 0 white) = ([], Some selfCaptureError).
Proof. vm_compute. reflexivity. Qed.

(** Black takes the last liberty of the white stone in the corner. *)
Example scenario_capture :
  Run (mkBoard 5 [mkStone 0 0 white; mkStone 0 1 black; mkStone 1 0 black]
               None)
      (mkStone 1 0 black)
  = ([[mkStone 0 0 white]], None).
Proof. vm_compute. reflexivity. Qed.

(** One black stone takes the last liberty of two white strings. *)
Example scenario_two_captures :
  Run (mkBoard 3 [mkStone 0 0 white; mkStone 2 0 white;
                  mkStone 0 1 black; mkStone 2 1 black; mkStone 1 0 black]
               None)
      (mkStone 1 0 black)
  = ([[mkStone 0 0 white]; [mkStone 2 0 white]], None).
Proof. vm_compute. reflexivity. Qed.

(** The membership test of the source does tell apart two stones at one
    point, which the test on coordinates does not. *)
Example contains_compares_colour :
  contains [mkStone 0 0 black] (mkStone 0 0 white) = false
  /\ containsCoord [mkStone 0 0 black] (mkStone 0 0 white) = true.
Proof. split; reflexivity. Qed.

(** * Further properties of the package *)

(** ** Lookups: [find], [contains], [containsString] *)

(** X1. [find] returns the first stone of the slice at the coordinates
    of the probe, whatever the colours: it returns nothing exactly when
    no stone of the slice sits there, and it returns [t] exactly when
    [t] sits there and no stone before it does. *)
Theorem find_first_match stones s :
  (find stones s = None <-> forall t, In t stones -> coords t <> coords s)
  /\ (forall t,
         find stones s = Some t
         <-> exists l1 l2,
             stones = l1 ++ t :: l2 /\ coords t = coords s
             /\ forall u, In u l1 -> coords u <> coords s).
Proof.
  split.
  - split; [apply find_None|]. intros H.
    destruct (find stones s) as [e|] eqn:E; [|reflexivity].
    apply find_Some in E. destruct E as [Hin Hc]. exfalso. now apply (H e).
  - induction stones as [|v l IH]; intros t; simpl.
    + split; [discriminate|]. intros [l1 [l2 [H _]]].
      destruct l1; discriminate.
    + destruct ((X v =? X s) && (Y v =? Y s)) eqn:E.
      * assert (coords v = coords s) as Hv.
        { apply andb_true_iff in E. rewrite !Z.eqb_eq in E.
          unfold coords. f_equal; tauto. }
        split.
        -- intros [= <-]. exists [], l. simpl. repeat split; tauto.
        -- intros [l1 [l2 [Hl [Hc Hb]]]].
           destruct l1 as [|u l1]; simpl in Hl; injection Hl as -> _;
             [reflexivity|].
           exfalso. apply (Hb u); [now left | exact Hv].
      * assert (coords v <> coords s) as Hv.
        { intros [= Hx Hy]. rewrite Hx, Hy, !Z.eqb_refl in E. discriminate. }
        rewrite IH. split.
        -- intros [l1 [l2 [-> [Hc Hb]]]]. exists (v :: l1), l2. simpl.
           repeat split; auto. intros u [<-|Hu]; auto.
        -- intros [l1 [l2 [Hl [Hc Hb]]]].
           destruct l1 as [|u l1]; simpl in Hl; injection Hl as -> ->.
           ++ contradiction.
           ++ exists l1, l2. repeat split; auto.
              intros w Hw. apply Hb. now right.
Qed.

(** X2. [contains] and [containsString] are membership under full
    equality: a stone is found exactly when the slice holds a stone with
    the same coordinates and the same colour, and a string that is not
    empty is found exactly when the slice holds the same sequence of
    stones.  (For an empty string [reflect.DeepEqual] tells the nil
    slice from the empty one, which a list does not.) *)
Theorem contains_membership l x strings str :
  str <> [] ->
  (contains l x = true
   <-> exists v, In v l /\ X v = X x /\ Y v = Y x /\ Color v = Color x)
  /\ (containsString strings str = true <-> In str strings).
Proof.
  intros _. split; [|apply containsString_In].
  rewrite contains_In. split.
  - intros H. now exists x.
  - intros [v [Hv [Hx [Hy Hc]]]]. now rewrite <- (stone_ext v x Hx Hy Hc).
Qed.

Lemma contains_membership_witness :
  contains [mkStone 0 0 black] (mkStone 0 0 white) = false
  /\ containsString [[mkStone 0 0 black]; [mkStone 1 0 white]]
                    [mkStone 1 0 white] = true.
Proof.
  assert ([mkStone 1 0 white] <> []) as Hne by discriminate.
  destruct (contains_membership [mkStone 0 0 black] (mkStone 0 0 white)
              [[mkStone 0 0 black]; [mkStone 1 0 white]]
              [mkStone 1 0 white] Hne) as [Hc Hs].
  split.
  - destruct (contains [mkStone 0 0 black] (mkStone 0 0 white)) eqn:E;
      [|reflexivity].
    destruct (proj1 Hc eq_refl) as [v [[<-|[]] [_ [_ Hcol]]]].
    discriminate Hcol.
  - apply Hs. right. now left.
Defined.

(** ** The order of [sort.Slice] *)

(** X3. The [less] closure of [getStrings] orders the stones by row
    and then by column: [less a b] holds exactly when [a] has the
    smaller [Y], or the same [Y] and the smaller [X].  It is a strict
    order on the coordinates: it is irreflexive and transitive, it never
    holds both ways, it decides any two stones at distinct points, and
    it does not look at the colours. *)
Theorem less_strict_order :
  (forall a b,
      less a b = true <-> Y a < Y b \/ (Y a = Y b /\ X a < X b))
  /\ (forall a, less a a = false)
  /\ (forall a b, less a b = true -> less b a = false)
  /\ (forall a b c, less a b = true -> less b c = true -> less a c = true)
  /\ (forall a b, coords a <> coords b -> less a b = true \/ less b a = true)
  /\ (forall a a' b b',
         coords a = coords a' -> coords b = coords b' ->
         less a b = less a' b').
Proof.
  split; [apply less_true|]. split; [|split; [|split; [|split]]].
  - intros a. destruct (less a a) eqn:E; [|reflexivity].
    apply less_true in E. lia.
  - intros a b H. destruct (less b a) eqn:E; [|reflexivity].
    apply less_true in H, E. lia.
  - intros a b c H1 H2. apply less_true in H1, H2. apply less_true. lia.
  - intros a b H. rewrite !less_true.
    assert (X a <> X b \/ Y a <> Y b) as Hd.
    { destruct (Z.eq_dec (X a) (X b)) as [Ex|]; [|tauto].
      destruct (Z.eq_dec (Y a) (Y b)) as [Ey|]; [|tauto].
      exfalso. apply H. unfold coords. congruence. }
    lia.
  - intros a a' b b' [= Hx Hy] [= Hx' Hy']. unfold less.
    now rewrite Hx, Hy, Hx', Hy'.
Qed.

(** ** Neighbours at the edges *)

Lemma isInbounds_inBoard size s : isInbounds size s = inBoard size (coords s).
Proof.
  unfold isInbounds, inBoard, coords. simpl. rewrite !Z.geb_leb.
  destruct (Z.ltb_spec (X s) 0), (Z.leb_spec size (X s)),
    (Z.ltb_spec (Y s) 0), (Z.leb_spec size (Y s)),
    (Z.leb_spec 0 (X s)), (Z.ltb_spec (X s) size),
    (Z.leb_spec 0 (Y s)), (Z.ltb_spec (Y s) size); simpl;
    try reflexivity; lia.
Qed.

Lemma filter_candidates size (cands : list Stone) (pts : list (Z * Z)) :
  Forall2 (fun c p => isInbounds size c = inBoard size p
                      /\ (inBoard size p = true -> coords c = p))
          cands pts ->
  map coords (filter (isInbounds size) cands) = filter (inBoard size) pts.
Proof.
  induction 1 as [|c p cands pts [Hb Hc] _ IH]; simpl; [reflexivity|].
  rewrite Hb. destruct (inBoard size p) eqn:E; [|exact IH].
  simpl. now rewrite IH, Hc.
Qed.

Lemma candidate_point size x y x' y' :
  Int.in_range size ->
  x' = x \/ x' = Int.min_int /\ x = Int.max_int + 1
  \/ x' = Int.max_int /\ x = Int.min_int - 1 ->
  y' = y \/ y' = Int.min_int /\ y = Int.max_int + 1
  \/ y' = Int.max_int /\ y = Int.min_int - 1 ->
  isInbounds size (mkStone x' y' EmptyString) = inBoard size (x, y)
  /\ (inBoard size (x, y) = true
      -> coords (mkStone x' y' EmptyString) = (x, y)).
Proof.
  unfold Int.in_range, Int.min_int, Int.max_int. intros Hsize Hx Hy.
  rewrite isInbounds_inBoard. unfold inBoard, coords. simpl.
  assert ((x' = x /\ y' = y)
          \/ ((0 <=? x') && (x' <? size) && (0 <=? y') && (y' <? size) = false
              /\ (0 <=? x) && (x <? size) && (0 <=? y) && (y <? size) = false))
    as [[-> ->]|[-> ->]].
  { destruct Hx as [Ex|Hx]; [destruct Hy as [Ey|Hy]; [now left|]|]; right;
      destruct (Z.leb_spec 0 x'), (Z.ltb_spec x' size),
        (Z.leb_spec 0 y'), (Z.ltb_spec y' size),
        (Z.leb_spec 0 x), (Z.ltb_spec x size),
        (Z.leb_spec 0 y), (Z.ltb_spec y size); simpl;
      split; try reflexivity; lia. }
  - tauto.
  - split; [reflexivity | discriminate].
Qed.

Lemma getNearby_coords board s :
  Int.in_range (Size board) -> int_stone s ->
  map coords (getNearby board s) = filter (inBoard (Size board)) (around s).
Proof.
  intros Hsize [Hx Hy].
  rewrite getNearby_eq, map_map,
    (map_ext _ coords (resolve_coords board)).
  apply filter_candidates. unfold nearbyStones, around.
  assert (forall z, Int.in_range z ->
            Int.add z 1 = z + 1
            \/ Int.add z 1 = Int.min_int /\ z + 1 = Int.max_int + 1
            \/ Int.add z 1 = Int.max_int /\ z + 1 = Int.min_int - 1) as Hadd.
  { intros z Hz. destruct (add_one z Hz) as [[_ E]|[-> E]]; [now left|].
    right; left. now split. }
  assert (forall z, Int.in_range z ->
            Int.sub z 1 = z - 1
            \/ Int.sub z 1 = Int.min_int /\ z - 1 = Int.max_int + 1
            \/ Int.sub z 1 = Int.max_int /\ z - 1 = Int.min_int - 1) as Hsub.
  { intros z Hz. destruct (sub_one z Hz) as [[_ E]|[-> E]]; [now left|].
    right; right. now split. }
  repeat constructor; apply candidate_point; auto.
Qed.

(** X4. Within the range of [int], [getNearby] visits the four points
    around the stone in the order up, down, left, right and keeps those
    within bounds: the coordinates of its result are that list of
    points, filtered. *)
Theorem getNearby_order board s :
  Int.in_range (Size board) -> int_stone s ->
  map coords (getNearby board s)
  = filter (inBoard (Size board))
           [(X s, Y s + 1); (X s, Y s - 1); (X s - 1, Y s); (X s + 1, Y s)].
Proof. apply getNearby_coords. Qed.

Lemma getNearby_order_witness :
  Int.in_range (Size board_corner) /\ int_stone (mkStone 0 0 white)
  /\ map coords (getNearby board_corner (mkStone 0 0 white))
     = [(0, 1); (1, 0)].
Proof.
  assert (Int.in_range (Size board_corner)) as Hs
    by (vm_compute; intuition discriminate).
  assert (int_stone (mkStone 0 0 white)) as Ht
    by (vm_compute; intuition discriminate).
  split; [exact Hs | split; [exact Ht|]].
  exact (getNearby_order board_corner (mkStone 0 0 white) Hs Ht).
Defined.

(** X5. A stone within bounds has four neighbours less one for each
    edge of the board it touches: two in a corner, three on an edge,
    four inside, none on a board of size 1. *)
Theorem getNearby_count board s :
  Int.in_range (Size board) -> isInbounds (Size board) s = true ->
  (List.length (getNearby board s)
   + Nat.b2n (X s =? 0)%Z + Nat.b2n (X s =? Size board - 1)%Z
   + Nat.b2n (Y s =? 0)%Z + Nat.b2n (Y s =? Size board - 1)%Z = 4)%nat.
Proof.
  intros Hsize Hin.
  pose proof (isInbounds_int _ _ Hsize Hin) as Hint.
  rewrite <- (length_map coords), (getNearby_coords _ _ Hsize Hint).
  apply isInbounds_true in Hin. unfold around, inBoard. simpl.
  replace (0 <=? X s) with true by (symmetry; apply Z.leb_le; lia).
  replace (X s <? Size board) with true by (symmetry; apply Z.ltb_lt; lia).
  replace (0 <=? Y s) with true by (symmetry; apply Z.leb_le; lia).
  replace (Y s <? Size board) with true by (symmetry; apply Z.ltb_lt; lia).
  replace (0 <=? Y s + 1) with true by (symmetry; apply Z.leb_le; lia).
  replace (0 <=? X s + 1) with true by (symmetry; apply Z.leb_le; lia).
  replace (Y s - 1 <? Size board) with true
    by (symmetry; apply Z.ltb_lt; lia).
  replace (X s - 1 <? Size board) with true
    by (symmetry; apply Z.ltb_lt; lia).
  replace (Y s + 1 <? Size board) with (negb (Y s =? Size board - 1))
    by (destruct (Z.ltb_spec (Y s + 1) (Size board)),
          (Z.eqb_spec (Y s) (Size board - 1)); simpl; try reflexivity; lia).
  replace (X s + 1 <? Size board) with (negb (X s =? Size board - 1))
    by (destruct (Z.ltb_spec (X s + 1) (Size board)),
          (Z.eqb_spec (X s) (Size board - 1)); simpl; try reflexivity; lia).
  replace (0 <=? Y s - 1) with (negb (Y s =? 0))
    by (destruct (Z.leb_spec 0 (Y s - 1)), (Z.eqb_spec (Y s) 0); simpl;
        try reflexivity; lia).
  replace (0 <=? X s - 1) with (negb (X s =? 0))
    by (destruct (Z.leb_spec 0 (X s - 1)), (Z.eqb_spec (X s) 0); simpl;
        try reflexivity; lia).
  destruct (X s =? 0), (X s =? Size board - 1), (Y s =? 0),
    (Y s =? Size board - 1); reflexivity.
Qed.

Lemma getNearby_count_witness :
  Int.in_range (Size board_centre)
  /\ isInbounds (Size board_centre) (mkStone 4 0 white) = true
  /\ List.length (getNearby board_centre (mkStone 4 0 white)) = 2%nat.
Proof.
  assert (Int.in_range (Size board_centre)) as Hs
    by (vm_compute; intuition discriminate).
  assert (isInbounds (Size board_centre) (mkStone 4 0 white) = true) as Hi
    by reflexivity.
  split; [exact Hs | split; [exact Hi|]].
  pose proof (getNearby_count board_centre (mkStone 4 0 white) Hs Hi) as H.
  simpl Nat.b2n in H. lia.
Defined.

(** ** Shape of a string *)

Lemma getString_loop_prefix board stone fuel : forall acc str res,
  getString_loop fuel board stone acc str = Some res ->
  exists rest, res = str ++ rest.
Proof.
  induction fuel as [|fuel IH]; intros acc str res Hres;
    destruct (list_last_cases acc) as [->|[acc' [s ->]]].
  - rewrite getString_loop_nil in Hres. injection Hres as <-.
    exists []. now rewrite app_nil_r.
  - simpl in Hres. rewrite pop_app in Hres. discriminate.
  - rewrite getString_loop_nil in Hres. injection Hres as <-.
    exists []. now rewrite app_nil_r.
  - rewrite getString_loop_step in Hres.
    destruct (negb (contains str s) && String.eqb (Color s) (Color stone)).
    + apply IH in Hres. destruct Hres as [rest ->].
      exists (s :: rest). now rewrite <- app_assoc.
    + now apply IH in Hres.
Qed.

Lemma getString_first board stone :
  exists rest, getString board stone = stone :: rest.
Proof.
  pose proof (getString_loop_getString board stone) as H.
  unfold getString_fuel in H. rewrite Nat.add_comm in H.
  change [stone] with ([] ++ [stone]) in H.
  simpl Nat.add in H. rewrite getString_loop_step in H.
  simpl contains in H. rewrite String.eqb_refl in H. cbn [negb andb] in H.
  apply getString_loop_prefix in H. destruct H as [rest H].
  exists rest. exact H.
Qed.

Lemma linked_cases board c seed t :
  linked board c seed t ->
  t = seed \/ (Color t = c /\ exists u, In t (getNearby board u)).
Proof.
  intros H. destruct H as [|u t _ Ht Hc]; [now left|].
  right. split; [exact Hc | now exists u].
Qed.

(** X6. The string [getString] returns starts with the seed, so it is
    never empty; and it holds at most one stone per point of the board
    besides the seed. *)
Theorem getString_shape board stone :
  (exists rest, getString board stone = stone :: rest)
  /\ (List.length (getString board stone)
      <= Z.to_nat (Size board) * Z.to_nat (Size board) + 1)%nat.
Proof.
  split; [apply getString_first|].
  rewrite <- points_length, Nat.add_comm.
  change (1 + List.length (points board))%nat
    with (List.length (stone :: points board)).
  apply NoDup_incl_length.
  - apply (inv_NoDup _ _ _ _ (getString_inv board stone)).
  - intros t Ht. apply In_getString, linked_cases in Ht.
    destruct Ht as [->|[_ [u Hu]]]; [now left|].
    right. now apply (getNearby_points _ u).
Qed.

(** X7. From a seed with a colour, [getString] never collects an empty
    point: every member other than the seed is a stone of the board
    within its bounds, the one [find] yields at its point. *)
Theorem getString_members board stone :
  Color stone <> EmptyString ->
  forall m, In m (getString board stone) ->
            m = stone
            \/ (In m (Stones board)
                /\ isInbounds (Size board) m = true
                /\ find (Stones board) m = Some m).
Proof.
  intros Hc m Hm. apply In_getString, linked_cases in Hm.
  destruct Hm as [->|[Hcm [u Hu]]]; [now left|]. right.
  apply In_getNearby in Hu. destruct Hu as [cand [Hcand [Hin ->]]].
  assert (on_board board (resolve board cand)) as Hon.
  { apply resolve_on_board; auto;
      [now apply nearbyStones_Color in Hcand | congruence]. }
  split; [now apply on_board_In|]. exact Hon.
Qed.

Lemma getString_members_witness :
  Color (mkStone 0 1 black) <> EmptyString
  /\ forall m, In m (getString board_corner (mkStone 0 1 black)) ->
               m = mkStone 0 1 black
               \/ (In m (Stones board_corner)
                   /\ isInbounds (Size board_corner) m = true
                   /\ find (Stones board_corner) m = Some m).
Proof.
  assert (Color (mkStone 0 1 black) <> EmptyString) as Hc
    by (simpl; discriminate).
  split; [exact Hc|].
  exact (getString_members board_corner (mkStone 0 1 black) Hc).
Defined.

Lemma getString_alone board stone :
  (forall n, In n (getNearby board stone) -> Color n <> Color stone) ->
  getString board stone = [stone].
Proof.
  intros Hn.
  assert (forall t, In t (getString board stone) -> t = stone) as Hall.
  { intros t Ht. apply In_getString in Ht.
    induction Ht as [|t u _ IH Hu Hc]; [reflexivity|].
    subst t. exfalso. now apply (Hn u). }
  destruct (getString_first board stone) as [rest E].
  pose proof (inv_NoDup _ _ _ _ (getString_inv board stone)) as Hnd.
  rewrite E in *. destruct rest as [|r rest]; [reflexivity|].
  inversion Hnd as [|? ? Hnot _]; subst. exfalso. apply Hnot.
  rewrite (Hall r); [now left | right; now left].
Qed.

(** X8. A stone none of whose resolved neighbours has its colour is a
    string by itself. *)
Theorem getString_isolated board stone :
  (forall n, In n (getNearby board stone) -> Color n <> Color stone) ->
  getString board stone = [stone].
Proof. apply getString_alone. Qed.

Lemma getString_isolated_witness :
  (forall n, In n (getNearby board_corner (mkStone 0 0 white)) ->
             Color n <> Color (mkStone 0 0 white))
  /\ getString board_corner (mkStone 0 0 white) = [mkStone 0 0 white].
Proof.
  assert (forall n, In n (getNearby board_corner (mkStone 0 0 white)) ->
                    Color n <> Color (mkStone 0 0 white)) as H.
  { vm_compute. intros n [<-|[<-|[]]]; discriminate. }
  split; [exact H|].
  exact (getString_isolated board_corner (mkStone 0 0 white) H).
Defined.

Lemma In_nil_eq {A} (l : list A) : (forall x, ~ In x l) -> l = [].
Proof.
  destruct l as [|a l]; [reflexivity|]. intros H. exfalso.
  apply (H a). now left.
Qed.

(** X9. On a board whose size is zero or negative no point is within
    bounds: [getNearby] returns nothing, every seed is a string by
    itself, and no string has a liberty. *)
Theorem nonpositive_size board :
  Size board <= 0 ->
  (forall s, getNearby board s = [])
  /\ (forall s, getString board s = [s])
  /\ (forall str, findLiberties board str = ([], 0%nat)).
Proof.
  intros Hsize.
  assert (forall s, getNearby board s = []) as Hnear.
  { intros s. apply In_nil_eq. intros n Hn.
    apply getNearby_inbounds, isInbounds_true in Hn. lia. }
  split; [exact Hnear | split].
  - intros s. apply getString_alone. intros n Hn.
    rewrite Hnear in Hn. destruct Hn.
  - intros str.
    assert (fst (findLiberties board str) = []) as E.
    { apply In_nil_eq. intros n Hn. apply In_findLiberties in Hn.
      destruct Hn as [s [_ [Hn _]]]. rewrite Hnear in Hn. destruct Hn. }
    pose proof (findLiberties_count board str) as Hcount.
    destruct (findLiberties board str) as [libs count].
    simpl in E, Hcount. now subst.
Qed.

Lemma nonpositive_size_witness :
  Size (mkBoard 0 [mkStone 0 0 black] None) <= 0
  /\ getString (mkBoard 0 [mkStone 0 0 black] None) (mkStone 0 0 black)
     = [mkStone 0 0 black].
Proof.
  assert (Size (mkBoard 0 [mkStone 0 0 black] None) <= 0) as H
    by (simpl; lia).
  split; [exact H|].
  exact (proj1 (proj2 (nonpositive_size _ H)) (mkStone 0 0 black)).
Defined.

(** X10. On a board whose stones are occupied and sit at pairwise
    distinct points within bounds, membership in a string does not
    depend on the seed: detecting from any member of the string of a
    stone gives, once sorted, the same string. *)
Theorem getString_any_member board seed t :
  Int.in_range (Size board) ->
  distinct_coords board -> stones_inbounds board -> stones_occupied board ->
  In seed (Stones board) -> In t (getString board seed) ->
  sortString (getString board t) = sortString (getString board seed).
Proof.
  intros Hsize Hd Hi Ho Hseed Ht.
  apply (getString_meet board Hsize Hd Hi Ho t seed t); auto.
  - now apply (getString_stones board Hsize Hd Hi Ho seed).
  - apply getString_seed.
Qed.

Lemma getString_any_member_witness :
  sortString (getString (mkBoard 3 [mkStone 0 0 black; mkStone 1 0 black] None)
                        (mkStone 1 0 black))
  = sortString (getString
                  (mkBoard 3 [mkStone 0 0 black; mkStone 1 0 black] None)
                  (mkStone 0 0 black)).
Proof.
  apply (getString_any_member
           (mkBoard 3 [mkStone 0 0 black; mkStone 1 0 black] None)).
  - vm_compute; intuition discriminate.
  - unfold distinct_coords; simpl; repeat constructor; simpl;
      intuition discriminate.
  - unfold stones_inbounds; simpl; repeat constructor.
  - unfold stones_occupied; simpl; repeat constructor; discriminate.
  - simpl. auto.
  - vm_compute. auto.
Defined.

(** ** Shape of the partition *)

Lemma sorted_strict l :
  StronglySorted key_le l -> NoDup (map coords l) ->
  StronglySorted (fun a b => less a b = true) l.
Proof.
  induction 1 as [|a l Hl IH Ha]; intros Hnd; [constructor|].
  simpl in Hnd. inversion Hnd as [|? ? Hna Hnd']; subst.
  constructor; [now apply IH|].
  rewrite Forall_forall in *. intros b Hb. specialize (Ha b Hb).
  apply key_le_iff in Ha. apply less_true.
  assert (coords a <> coords b) as Hne.
  { intros E. apply Hna. rewrite E. now apply in_map. }
  unfold coords in Hne.
  destruct (Z.eq_dec (X a) (X b)) as [Ex|Ex];
    destruct (Z.eq_dec (Y a) (Y b)) as [Ey|Ey]; try lia.
  exfalso. apply Hne. congruence.
Qed.

Lemma getStrings_length_acc board : forall stones acc,
  (List.length
     (fold_left
        (fun strings stone =>
           let newString := sortString (getString board stone) in
           if negb (containsString strings newString)
           then strings ++ [newString]
           else strings)
        stones acc)
   <= List.length acc + List.length stones)%nat.
Proof.
  induction stones as [|s stones IH]; intros acc; simpl; [lia|].
  etransitivity; [apply IH|].
  destruct (negb (containsString acc (sortString (getString board s))));
    [rewrite length_app; simpl|]; lia.
Qed.

(** X11. Whatever the board, [getStrings] returns no string twice and
    at most one string per stone; each returned string is not empty, is
    of one colour, and is strictly increasing by row and then by
    column, so that no two of its stones share a point. *)
Theorem getStrings_canonical board :
  NoDup (getStrings board)
  /\ (List.length (getStrings board) <= List.length (Stones board))%nat
  /\ (forall str, In str (getStrings board) ->
         str <> []
         /\ (exists c, forall m, In m str -> Color m = c)
         /\ StronglySorted (fun a b => less a b = true) str
         /\ NoDup (map coords str)).
Proof.
  split; [apply NoDup_getStrings|]. split.
  - apply (getStrings_length_acc board (Stones board) []).
  - intros str Hstr. apply In_getStrings in Hstr.
    destruct Hstr as [seed [_ ->]].
    assert (NoDup (map coords (sortString (getString board seed)))) as Hnd.
    { apply (Permutation_NoDup (l := map coords (getString board seed)));
        [|apply getString_NoDup_coords].
      apply Permutation_map. symmetry. apply sortString_perm. }
    split; [|split; [|split]].
    + intros E. pose proof (getString_seed board seed) as Hs.
      apply In_sortString in Hs. rewrite E in Hs. destruct Hs.
    + exists (Color seed). intros m Hm.
      apply (proj1 (In_sortString _ _)) in Hm.
      now apply getString_Color in Hm.
    + apply sorted_strict; [apply sortString_sorted | exact Hnd].
    + exact Hnd.
Qed.

(** ** Counting liberties *)

Lemma liberties_length_inner (near : list Stone) : forall acc,
  (List.length
     (fold_left
        (fun liberties ns =>
           if String.eqb (Color ns) EmptyString
              && negb (contains liberties ns)
           then liberties ++ [ns]
           else liberties)
        near acc)
   <= List.length acc + List.length near)%nat.
Proof.
  induction near as [|n near IH]; intros acc; simpl; [lia|].
  etransitivity; [apply IH|].
  destruct (String.eqb (Color n) EmptyString && negb (contains acc n));
    [rewrite length_app; simpl|]; lia.
Qed.

Lemma liberties_length board str : forall acc,
  (List.length
     (fold_left
        (fun liberties s =>
           fold_left
             (fun liberties ns =>
                if String.eqb (Color ns) EmptyString
                   && negb (contains liberties ns)
                then liberties ++ [ns]
                else liberties)
             (getNearby board s) liberties)
        str acc)
   <= List.length acc + 4 * List.length str)%nat.
Proof.
  induction str as [|s str IH]; intros acc; simpl; [lia|].
  etransitivity; [apply IH|].
  pose proof (liberties_length_inner (getNearby board s) acc).
  pose proof (getNearby_length board s). lia.
Qed.

(** X12. A string has at most four liberties per stone; the empty
    string has none. *)
Theorem findLiberties_bound board str :
  (snd (findLiberties board str) <= 4 * List.length str)%nat.
Proof. apply (liberties_length board str []). Qed.

Lemma liberties_incl board str str' :
  incl str str' ->
  incl (fst (findLiberties board str)) (fst (findLiberties board str')).
Proof.
  intros H n Hn. apply In_findLiberties in Hn. apply In_findLiberties.
  destruct Hn as [s [Hs Hn]]. exists s. split; [now apply H | exact Hn].
Qed.

(** X13. The liberty count depends on the stones of the string only,
    not on their order nor on repetitions: two strings with the same
    members have the same count.  Sorting a string leaves its count
    unchanged. *)
Theorem findLiberties_same_members board str str' :
  (forall s, In s str <-> In s str') ->
  snd (findLiberties board str) = snd (findLiberties board str').
Proof.
  intros H. rewrite !findLiberties_count. apply Nat.le_antisymm;
    apply NoDup_incl_length; try apply NoDup_findLiberties;
    apply liberties_incl; intros s Hs; now apply H.
Qed.

Lemma findLiberties_same_members_witness :
  snd (findLiberties board_corner
         (sortString [mkStone 0 1 black; mkStone 1 0 black]))
  = snd (findLiberties board_corner [mkStone 0 1 black; mkStone 1 0 black]).
Proof.
  apply (findLiberties_same_members board_corner).
  intros s. apply In_sortString.
Defined.

(** X14. A string that grows does not lose liberties by the count of
    [findLiberties]: if every stone of [str] is in [str'], the count of
    [str] is at most that of [str'] on the same board. *)
Theorem findLiberties_incl board str str' :
  incl str str' ->
  (snd (findLiberties board str) <= snd (findLiberties board str'))%nat.
Proof.
  intros H. rewrite !findLiberties_count.
  apply NoDup_incl_length; [apply NoDup_findLiberties|].
  now apply liberties_incl.
Qed.

Lemma findLiberties_incl_witness :
  (snd (findLiberties board_corner [mkStone 0 1 black])
   <= snd (findLiberties board_corner [mkStone 0 1 black; mkStone 1 0 black]))%nat.
Proof.
  apply (findLiberties_incl board_corner).
  intros s [<-|[]]. now left.
Defined.

(** ** Outcomes of [Run] *)

Lemma Run_incl board stone :
  incl (fst (Run board stone)) (zeroLiberties board).
Proof.
  rewrite Run_eq. simpl.
  destruct ((List.length (zeroLiberties board) =? 1)%nat
            && contains (nth 0 (zeroLiberties board) []) stone);
    [intros x []|].
  destruct (1 <? List.length (zeroLiberties board))%nat; simpl.
  - intros x Hx. now apply filter_In in Hx.
  - apply incl_refl.
Qed.

(** X15. [Run] only ever returns strings of the partition that have no
    liberty: no member of a returned string has an empty point among
    its resolved neighbours. *)
Theorem Run_removes_captured board stone str :
  In str (fst (Run board stone)) ->
  In str (getStrings board)
  /\ snd (findLiberties board str) = 0%nat
  /\ forall m n, In m str -> In n (getNearby board m) ->
                 Color n <> EmptyString.
Proof.
  intros H. apply Run_incl, In_zeroLiberties in H.
  destruct H as [Hstr Hzero]. split; [exact Hstr | split; [exact Hzero|]].
  intros m n Hm Hn Hc.
  assert (In n (fst (findLiberties board str))) as Hin
    by (apply In_findLiberties; now exists m).
  rewrite findLiberties_count in Hzero.
  destruct (fst (findLiberties board str)); [destruct Hin | discriminate].
Qed.

Lemma Run_removes_captured_witness :
  In [mkStone 1 0 white] (fst (Run board_full (mkStone 1 1 black)))
  /\ snd (findLiberties board_full [mkStone 1 0 white]) = 0%nat.
Proof.
  assert (In [mkStone 1 0 white] (fst (Run board_full (mkStone 1 1 black))))
    as H by (vm_compute; auto).
  split; [exact H|].
  exact (proj1 (proj2 (Run_removes_captured board_full (mkStone 1 1 black)
                         [mkStone 1 0 white] H))).
Defined.

(** X16. When every string of the partition has a liberty, [Run]
    returns the empty list and no error, whatever the stone. *)
Theorem Run_no_capture board stone :
  (forall str, In str (getStrings board) ->
               snd (findLiberties board str) <> 0%nat) ->
  Run board stone = ([], None).
Proof.
  intros H.
  assert (zeroLiberties board = []) as E.
  { apply In_nil_eq. intros str Hstr. apply In_zeroLiberties in Hstr.
    destruct Hstr as [Hin Hz]. now apply (H str). }
  rewrite Run_eq, E. reflexivity.
Qed.

Lemma Run_no_capture_witness :
  Run board_centre (mkStone 2 2 black) = ([], None).
Proof.
  apply Run_no_capture.
  intros str Hstr. vm_compute in Hstr.
  destruct Hstr as [<-|[]]. vm_compute. discriminate.
Defined.

Lemma filter_all_true {A} (p : A -> bool) l :
  (forall x, In x l -> p x = true) -> filter p l = l.
Proof.
  induction l as [|a l IH]; intros H; simpl; [reflexivity|].
  rewrite (H a) by now left. f_equal. apply IH.
  intros x Hx. apply H. now right.
Qed.

(** X17. When no string of the partition contains the stone handed to
    [Run] (the stone is not on the board), [Run] never reports a
    self-capture and returns every string without a liberty. *)
Theorem Run_stone_elsewhere board stone :
  (forall str, In str (getStrings board) -> ~ In stone str) ->
  Run board stone
  = (filter (fun str => (snd (findLiberties board str) =? 0)%nat)
            (getStrings board),
     None).
Proof.
  intros H. rewrite <- zeroLiberties_eq.
  assert (forall str, In str (zeroLiberties board) ->
                      contains str stone = false) as Hz.
  { intros str Hstr. apply contains_false, H.
    now apply In_zeroLiberties in Hstr. }
  rewrite Run_eq. simpl.
  destruct (zeroLiberties board) as [|str0 [|str1 rest]] eqn:E;
    [reflexivity| |].
  - simpl. rewrite (Hz str0) by now left. reflexivity.
  - replace ((List.length (str0 :: str1 :: rest) =? 1)%nat) with false
      by reflexivity.
    replace ((1 <? List.length (str0 :: str1 :: rest))%nat) with true
      by reflexivity.
    cbn [andb]. rewrite filter_all_true; [reflexivity|].
    intros str Hstr. now rewrite (Hz str Hstr).
Qed.

Lemma Run_stone_elsewhere_witness :
  Run board_corner (mkStone 4 4 black) = ([[mkStone 0 0 white]], None).
Proof.
  refine (eq_trans (Run_stone_elsewhere board_corner (mkStone 4 4 black) _) _).
  - intros str Hstr. vm_compute in Hstr.
    destruct Hstr as [<-|[<-|[<-|[]]]]; simpl;
      intuition discriminate.
  - vm_compute. reflexivity.
Defined.

(** ** The partition as a list *)

Lemma NoDup_concat {A} (ls : list (list A)) :
  NoDup ls -> (forall l, In l ls -> NoDup l) ->
  (forall l1 l2 x, In l1 ls -> In l2 ls -> In x l1 -> In x l2 -> l1 = l2) ->
  NoDup (List.concat ls).
Proof.
  induction ls as [|l ls IH]; intros Hnd Heach Hmeet; simpl; [constructor|].
  inversion Hnd as [|? ? Hl Hls]; subst.
  apply NoDup_app.
  - apply Heach. now left.
  - apply IH; auto.
    + intros l' Hl'. apply Heach. now right.
    + intros l1 l2 x H1 H2. apply Hmeet; now right.
  - intros x Hx Hc. apply in_concat in Hc. destruct Hc as [l' [Hl' Hx']].
    apply Hl. rewrite (Hmeet l l' x); auto; [now left | now right].
Qed.

(** X18. On a board whose stones are occupied and sit at pairwise
    distinct points within bounds, the strings of [getStrings] laid end
    to end are a rearrangement of the stones of the board: every stone
    is in exactly one string, exactly once, and the lengths of the
    strings add up to the number of stones. *)
Theorem getStrings_rearranges board :
  Int.in_range (Size board) ->
  distinct_coords board -> stones_inbounds board -> stones_occupied board ->
  Permutation (List.concat (getStrings board)) (Stones board)
  /\ list_sum (map (@List.length Stone) (getStrings board))
     = List.length (Stones board).
Proof.
  intros Hsize Hd Hi Ho.
  assert (Permutation (List.concat (getStrings board)) (Stones board)) as Hperm.
  { apply NoDup_Permutation.
    - apply NoDup_concat.
      + apply NoDup_getStrings.
      + intros str Hstr. apply In_getStrings in Hstr.
        destruct Hstr as [seed [_ ->]].
        apply (Permutation_NoDup (l := getString board seed)).
        * symmetry. apply sortString_perm.
        * apply (inv_NoDup _ _ _ _ (getString_inv board seed)).
      + intros str1 str2 x H1 H2 Hx1 Hx2.
        now apply (getStrings_no_shared_point board Hsize Hd Hi Ho
                     str1 str2 x x).
    - apply (NoDup_map_inv coords). exact Hd.
    - intros s. rewrite in_concat.
      rewrite <- (getStrings_covers board Hsize Hd Hi Ho s).
      split; intros [str H]; exists str; tauto. }
  split; [exact Hperm|].
  rewrite <- (Permutation_length Hperm).
  clear. induction (getStrings board) as [|l ls IH]; simpl; [reflexivity|].
  now rewrite length_app, IH.
Qed.

Lemma getStrings_rearranges_witness :
  Permutation (List.concat (getStrings board_corner)) (Stones board_corner).
Proof.
  apply (getStrings_rearranges board_corner).
  - vm_compute; intuition discriminate.
  - unfold distinct_coords; simpl; repeat constructor; simpl;
      intuition discriminate.
  - unfold stones_inbounds; simpl; repeat constructor.
  - unfold stones_occupied; simpl; repeat constructor; discriminate.
Defined.

(** X19. On such a board [Run] reports a self-capture only for a stone
    that is on the board, and the string it then refuses to remove is
    the whole string of that stone. *)
Theorem Run_error_stone_on_board board stone e :
  Int.in_range (Size board) ->
  distinct_coords board -> stones_inbounds board -> stones_occupied board ->
  snd (Run board stone) = Some e ->
  In stone (Stones board)
  /\ snd (findLiberties board (sortString (getString board stone))) = 0%nat
  /\ forall str, In str (getStrings board) ->
                 snd (findLiberties board str) = 0%nat ->
                 str = sortString (getString board stone).
Proof.
  intros Hsize Hd Hi Ho Herr. destruct e.
  apply Run_error_iff in Herr. destruct Herr as [str0 [E Hc]].
  apply contains_In in Hc.
  assert (In str0 (zeroLiberties board)) as H0 by (rewrite E; now left).
  apply In_zeroLiberties in H0. destruct H0 as [Hin0 Hz0].
  assert (In stone (Stones board)) as Hstone.
  { apply (getStrings_covers board Hsize Hd Hi Ho). now exists str0. }
  assert (str0 = sortString (getString board stone)) as Hstr0.
  { apply (getStrings_no_shared_point board Hsize Hd Hi Ho
             str0 _ stone stone); auto.
    - apply In_getStrings. now exists stone.
    - apply In_sortString, getString_seed. }
  subst str0. split; [exact Hstone | split; [exact Hz0|]].
  intros str Hstr Hz.
  assert (In str (zeroLiberties board)) as H
    by (apply In_zeroLiberties; tauto).
  rewrite E in H. destruct H as [<-|[]]. reflexivity.
Qed.

Lemma Run_error_stone_on_board_witness :
  In (mkStone 0 0 white) (Stones board_corner).
Proof.
  refine (proj1 (Run_error_stone_on_board board_corner (mkStone 0 0 white)
                   selfCaptureError _ _ _ _ _)).
  - vm_compute; intuition discriminate.
  - unfold distinct_coords; simpl; repeat constructor; simpl;
      intuition discriminate.
  - unfold stones_inbounds; simpl; repeat constructor.
  - unfold stones_occupied; simpl; repeat constructor; discriminate.
  - vm_compute. reflexivity.
Defined.
